(** * logtop: scheduling and lifecycle coordination of [src/main.c]

    A shallow embedding of [main.c]: the ingestion loop [run], the timer
    handler [update_display], the shutdown routine [at_exit], the interrupt
    handler [on_sigint], option parsing [parse_args] and [main] itself.

    Library calls whose effect is outside the process ([sigaction], [alarm],
    the curses and stdout renderers, the logtop engine, [fflush], [kill]) are
    recorded as events of a trace.  Integers are mathematical ([Z]): the
    fields of [env_t] are declared in [main.h] and no statement of [main.c]
    depends on their width. *)

From Stdlib Require Import String ZArith List Bool Ascii Sorted Lia.
Import ListNotations.
Open Scope Z_scope.

(** ** Bytes and C strings *)

Definition NUL : ascii := "000"%char.
Definition LF : ascii := "010"%char.
Definition CR : ascii := "013"%char.

(** A buffer is the array of bytes behind a [char *]. *)
Definition buffer := list ascii.

(** [string[i] = c]; nothing is stored outside the array. *)
Fixpoint store (string : buffer) (i : nat) (c : ascii) : buffer :=
  match string, i with
  | [], _ => []
  | _ :: tl, O => c :: tl
  | hd :: tl, S j => hd :: store tl j c
  end.

(** What a callee that takes a [char *] sees: the bytes before the first NUL. *)
Fixpoint c_str (string : buffer) : list ascii :=
  match string with
  | [] => []
  | c :: tl => if Ascii.eqb c NUL then [] else c :: c_str tl
  end.

(** [getline(&string, &size, stdin)]: the bytes up to and including the next
    line feed, or up to end of file when no line feed is left; [None] stands
    for the return value -1 (nothing left to read). The second component is
    what remains of the stream. *)
Fixpoint getline (stdin : list ascii) : option (list ascii * list ascii) :=
  match stdin with
  | [] => None
  | c :: rest =>
      if Ascii.eqb c LF then Some ([c], rest)
      else match getline rest with
           | None => Some ([c], [])
           | Some (line, rest') => Some (c :: line, rest')
           end
  end.

(** ** Events *)

Inductive signal := SIGINT | SIGALRM.

Inductive sighandler := SIG_DFL | H_on_sigint | H_update_display.

Inductive event :=
| Sigaction (signum : signal) (flags : Z) (act : sighandler)
| Alarm (seconds : Z)
| NewLogtop (history_size : Z)
| LogtopFeed (line : list ascii)
| DeleteLogtop
| CursesSetup
| CursesUpdate
| CursesRelease
| StdoutUpdate (nb_results : Z) (flag : Z)
| Fflush
| Kill (sig : signal)
| UsageText (exit_code : Z)
| VersionText.

Definition EXIT_SUCCESS : Z := 0.
Definition EXIT_FAILURE : Z := 1.
Definition SA_RESTART : Z := 268435456.

(** ** The ingestion loop, [run] (main.c:70-90) *)

Definition is_eol (c : ascii) : bool := Ascii.eqb c LF || Ascii.eqb c CR.

(** The inner [while] of [run] (main.c:80-85): as long as [str_length > 0] and
    the byte at [str_length - 1] is a line feed or a carriage return, a NUL is
    written over it and [str_length] is decremented. *)
Fixpoint strip_loop (string : buffer) (str_length : nat) : buffer * nat :=
  match str_length with
  | O => (string, O)
  | S n =>
      if is_eol (nth n string NUL)
      then strip_loop (store string n NUL) n
      else (string, str_length)
  end.

(** The argument [logtop_feed] receives for a line that [getline] returned:
    [getline] leaves the line NUL-terminated in [string] and returns its
    length. *)
Definition fed_line (line : list ascii) : list ascii :=
  c_str (fst (strip_loop (line ++ [NUL]) (length line))).

(** The outer [while] of [run] (main.c:78-87). Every call of [getline] that
    succeeds consumes at least one byte, so [length stdin] iterations are
    enough (see [run_loop_eof]). The result is the trace and the unread rest
    of the stream. The buffer [getline] allocates, and its [free] at
    main.c:88-89, leave no event. *)
Fixpoint run_loop (fuel : nat) (stdin : list ascii) : list event * list ascii :=
  match fuel with
  | O => ([], stdin)
  | S fuel' =>
      match getline stdin with
      | None => ([], stdin)
      | Some (line, rest) =>
          let (evs, rest') := run_loop fuel' rest in
          (LogtopFeed (fed_line line) :: evs, rest')
      end
  end.

Definition run (stdin : list ascii) : list event :=
  fst (run_loop (length stdin) stdin).

(** The lines successive calls of [getline] return until it returns -1. *)
Fixpoint getlines (fuel : nat) (stdin : list ascii) : list (list ascii) :=
  match fuel with
  | O => []
  | S fuel' =>
      match getline stdin with
      | None => []
      | Some (line, rest) => line :: getlines fuel' rest
      end
  end.

(** ** Process state *)

(** Modelled from the spec: [env_t] is declared in [main.h], which is not
    among the sources; the record has the fields [main.c] reads and writes
    through [gl_env]. [logtop] is [None] for a null handle and otherwise the
    capacity the engine was created with. *)
Record env_t := mk_env {
  history_size : Z;
  quiet : Z;
  last_update_time : Z;
  line_by_line : Z;
  interval : Z;
  logtop : option Z
}.

(** [gl_env] has static storage: every field starts as zero. *)
Definition env0 : env_t :=
  {| history_size := 0; quiet := 0; last_update_time := 0;
     line_by_line := 0; interval := 0; logtop := None |}.

Definition set_last_update_time (e : env_t) (t : Z) : env_t :=
  {| history_size := history_size e; quiet := quiet e; last_update_time := t;
     line_by_line := line_by_line e; interval := interval e;
     logtop := logtop e |}.

Definition set_logtop (e : env_t) (h : option Z) : env_t :=
  {| history_size := history_size e; quiet := quiet e;
     last_update_time := last_update_time e;
     line_by_line := line_by_line e; interval := interval e; logtop := h |}.

(** An [int] used as a condition. *)
Definition truthy (x : Z) : bool := negb (x =? 0).

(** [setup_sighandler] (main.c:40-51): the handler is [SIG_DFL] when [act]
    is null. *)
Definition setup_sighandler (signum : signal) (flags : Z)
    (act : option sighandler) : list event :=
  [Sigaction signum flags (match act with Some h => h | None => SIG_DFL end)].

(** ** The timer handler, [update_display] (main.c:53-68) *)

(** [now] is what [time(NULL)] returns when the handler runs. *)
Definition update_display (e : env_t) (now : Z) : env_t * list event :=
  if truthy (quiet e) then (e, [])
  else
    let current_time := now in
    if current_time <? last_update_time e + interval e then (e, [])
    else
      let e' := set_last_update_time e current_time in
      (e', (if truthy (line_by_line e')
            then [StdoutUpdate (line_by_line e') 1]
            else [CursesUpdate]) ++ [Alarm 1]).

(** ** Shutdown, [at_exit] (main.c:176-186) and [on_sigint] (main.c:188-193) *)

(** The four statements of [at_exit], one definition each. *)
Definition at_exit_curses (e : env_t) : list event :=
  if negb (truthy (quiet e)) && negb (truthy (line_by_line e))
  then [CursesRelease] else [].

Definition at_exit_report (e : env_t) : list event :=
  if truthy (line_by_line e)
  then [StdoutUpdate (line_by_line e) 1]
  else [StdoutUpdate 10 0].

Definition at_exit_delete (e : env_t) : list event := [DeleteLogtop].

Definition at_exit_flush (e : env_t) : list event := [Fflush].

Definition at_exit (e : env_t) : list event :=
  at_exit_curses e ++ at_exit_report e ++ at_exit_delete e ++ at_exit_flush e.

Definition on_sigint (e : env_t) (sig : signal) : list event :=
  setup_sighandler SIGINT 0 None ++ at_exit e ++ [Kill sig].

(** ** Option parsing, [parse_args] (main.c:123-174) *)

Definition isspace (c : ascii) : bool :=
  Ascii.eqb c " " || Ascii.eqb c "009" || Ascii.eqb c "010"
  || Ascii.eqb c "011" || Ascii.eqb c "012" || Ascii.eqb c "013".

Definition digit (c : ascii) : option Z :=
  let n := Z.of_nat (nat_of_ascii c) in
  if (48 <=? n) && (n <=? 57) then Some (n - 48) else None.

Fixpoint atoi_digits (s : list ascii) (acc : Z) : Z :=
  match s with
  | [] => acc
  | c :: tl =>
      match digit c with
      | Some d => atoi_digits tl (10 * acc + d)
      | None => acc
      end
  end.

Fixpoint skip_spaces (s : list ascii) : list ascii :=
  match s with
  | c :: tl => if isspace c then skip_spaces tl else s
  | [] => []
  end.

(** [atoi] of the C library: optional white space, an optional sign, then
    the longest run of decimal digits; the value is 0 when there is no digit.
    The value is the mathematical one (C leaves the result undefined when it
    does not fit an [int]). *)
Definition atoi (s : list ascii) : Z :=
  match skip_spaces s with
  | c :: tl =>
      if Ascii.eqb c "-" then - atoi_digits tl 0
      else if Ascii.eqb c "+" then atoi_digits tl 0
      else atoi_digits (c :: tl) 0
  | [] => 0
  end.

(** What one call of [getopt_long] leaves behind: the option character it
    returns (["?"] for an option it does not know or one whose argument is
    missing) and [optarg]. *)
Record getopt_result := mk_opt { opt : ascii; optarg : list ascii }.

Inductive outcome (A : Type) :=
| Continue (a : A)
| Exit (exit_code : Z).
Arguments Continue {A} a.
Arguments Exit {A} exit_code.

Definition usage_and_exit {A} (exit_code : Z) : list event * outcome A :=
  ([UsageText exit_code], Exit exit_code).

Definition version_and_exit {A} : list event * outcome A :=
  ([VersionText], Exit EXIT_SUCCESS).

(** The [while (1)] of [parse_args]; [opts] are the results of the successive
    calls of [getopt_long] before the one that returns -1. *)
Fixpoint parse_opts (e : env_t) (opts : list getopt_result)
    : list event * outcome env_t :=
  match opts with
  | [] => ([], Continue e)
  | o :: rest =>
      let c := opt o in
      if Ascii.eqb c "l" then
        parse_opts (mk_env (history_size e) (quiet e) (last_update_time e)
                      (atoi (optarg o)) (interval e) (logtop e)) rest
      else if Ascii.eqb c "q" then
        parse_opts (mk_env (history_size e) 1 (last_update_time e)
                      (line_by_line e) (interval e) (logtop e)) rest
      else if Ascii.eqb c "s" then
        parse_opts (mk_env (atoi (optarg o)) (quiet e) (last_update_time e)
                      (line_by_line e) (interval e) (logtop e)) rest
      else if Ascii.eqb c "i" then
        parse_opts (mk_env (history_size e) (quiet e) (last_update_time e)
                      (line_by_line e) (atoi (optarg o)) (logtop e)) rest
      else if Ascii.eqb c "v" then version_and_exit
      else if Ascii.eqb c "h" then usage_and_exit EXIT_SUCCESS
      else usage_and_exit EXIT_FAILURE
  end.

(** The cases of the [switch] that store a value and go on with the loop. *)
Definition stores_value (o : getopt_result) : bool :=
  Ascii.eqb (opt o) "l" || Ascii.eqb (opt o) "q" || Ascii.eqb (opt o) "s"
  || Ascii.eqb (opt o) "i".

(** [DEFAULT_HISTORY_SIZE] is a macro of [main.h]; it is a parameter here.
    [stdin_isatty] is [isatty(fileno(stdin))]. *)
Definition parse_args (DEFAULT_HISTORY_SIZE : Z) (e : env_t)
    (opts : list getopt_result) (stdin_isatty : bool)
    : list event * outcome env_t :=
  let e := mk_env 0 0 0 0 1 (logtop e) in
  match parse_opts e opts with
  | (evs, Exit code) => (evs, Exit code)
  | (evs, Continue e) =>
      if stdin_isatty then usage_and_exit EXIT_FAILURE
      else
        (evs,
         Continue
           (if history_size e =? 0
            then mk_env DEFAULT_HISTORY_SIZE (quiet e) (last_update_time e)
                   (line_by_line e) (interval e) (logtop e)
            else e))
  end.

(** ** [main] (main.c:195-208) as a process that signals may interrupt *)

(** What the process is started with. *)
Record input := mk_input {
  DEFAULT_HISTORY_SIZE : Z;
  getopt_results : list getopt_result;
  stdin_isatty : bool;
  stdin_bytes : list ascii
}.

(** The statement [main] is about to execute. A signal is delivered between
    two statements of [main], and each iteration of the loop of [run] counts
    as one statement. The statements of [at_exit] called from [main]
    (main.c:206) are program points of their own: the interrupt handler is
    still installed while they run. The assignment of main.c:201 is one
    statement here; [fine_step] takes its call of [time] and its store
    apart. *)
Inductive label :=
| L_parse_args          (* main.c:197 *)
| L_sighandler_int      (* main.c:198 *)
| L_sighandler_alrm     (* main.c:199 *)
| L_alarm               (* main.c:200 *)
| L_time                (* main.c:201 *)
| L_new_logtop          (* main.c:202 *)
| L_curses_setup        (* main.c:203-204 *)
| L_run                 (* main.c:205, one iteration of main.c:78-87 *)
| L_exit_curses         (* main.c:206, at main.c:178-179 *)
| L_exit_report         (* main.c:180-183 *)
| L_exit_delete         (* main.c:184 *)
| L_exit_flush          (* main.c:185 *)
| L_return.             (* main.c:207 *)

Inductive status :=
| Running
| Exited (exit_code : Z)
| Killed (sig : signal).

Record process := mk_process {
  gl_env : env_t;
  pc : label;
  disp_int : sighandler;    (* disposition of SIGINT *)
  disp_alrm : sighandler;   (* disposition of SIGALRM *)
  alarm_armed : bool;       (* an [alarm] is pending *)
  stdin : list ascii;       (* what is left to read *)
  trace : list event;       (* oldest first *)
  state : status
}.

Definition start (inp : input) : process :=
  {| gl_env := env0; pc := L_parse_args; disp_int := SIG_DFL;
     disp_alrm := SIG_DFL; alarm_armed := false; stdin := stdin_bytes inp;
     trace := []; state := Running |}.

Definition with_env (p : process) (e : env_t) : process :=
  mk_process e (pc p) (disp_int p) (disp_alrm p) (alarm_armed p) (stdin p)
    (trace p) (state p).

Definition goto (p : process) (l : label) : process :=
  mk_process (gl_env p) l (disp_int p) (disp_alrm p) (alarm_armed p) (stdin p)
    (trace p) (state p).

Definition with_stdin (p : process) (s : list ascii) : process :=
  mk_process (gl_env p) (pc p) (disp_int p) (disp_alrm p) (alarm_armed p) s
    (trace p) (state p).

Definition with_state (p : process) (s : status) : process :=
  mk_process (gl_env p) (pc p) (disp_int p) (disp_alrm p) (alarm_armed p)
    (stdin p) (trace p) s.

Definition disarm (p : process) : process :=
  mk_process (gl_env p) (pc p) (disp_int p) (disp_alrm p) false (stdin p)
    (trace p) (state p).

Definition disposition (p : process) (sig : signal) : sighandler :=
  match sig with SIGINT => disp_int p | SIGALRM => disp_alrm p end.

(** The effect of one library call on the process, besides its record in
    the trace: [sigaction] changes a disposition, [alarm] arms the timer,
    and [kill(getpid(), sig)] ends the process when [sig] has its default
    disposition. The only call of [kill] is the last statement of
    [on_sigint], which has restored the default disposition of the signal
    it handles by then. *)
Definition perform (p : process) (ev : event) : process :=
  let p' :=
    match ev with
    | Sigaction SIGINT _ act =>
        mk_process (gl_env p) (pc p) act (disp_alrm p) (alarm_armed p)
          (stdin p) (trace p) (state p)
    | Sigaction SIGALRM _ act =>
        mk_process (gl_env p) (pc p) (disp_int p) act (alarm_armed p)
          (stdin p) (trace p) (state p)
    | Alarm seconds =>
        mk_process (gl_env p) (pc p) (disp_int p) (disp_alrm p)
          (negb (seconds =? 0)) (stdin p) (trace p) (state p)
    | Kill sig =>
        match disposition p sig with
        | SIG_DFL => with_state p (Killed sig)
        | _ => p
        end
    | _ => p
    end in
  mk_process (gl_env p') (pc p') (disp_int p') (disp_alrm p') (alarm_armed p')
    (stdin p') (trace p' ++ [ev]) (state p').

Definition emit (p : process) (evs : list event) : process :=
  fold_left perform evs p.

(** main.c:203-204. *)
Definition main_curses_setup (e : env_t) : list event :=
  if negb (truthy (quiet e)) && negb (truthy (line_by_line e))
  then [CursesSetup] else [].

(** One statement of [main]; [now] is the calendar time at that moment. *)
Definition main_step (inp : input) (now : Z) (p : process) : process :=
  match pc p with
  | L_parse_args =>
      match parse_args (DEFAULT_HISTORY_SIZE inp) (gl_env p)
              (getopt_results inp) (stdin_isatty inp) with
      | (evs, Exit code) => with_state (emit p evs) (Exited code)
      | (evs, Continue e) => goto (with_env (emit p evs) e) L_sighandler_int
      end
  | L_sighandler_int =>
      goto (emit p (setup_sighandler SIGINT 0 (Some H_on_sigint)))
        L_sighandler_alrm
  | L_sighandler_alrm =>
      goto (emit p (setup_sighandler SIGALRM SA_RESTART
                      (Some H_update_display))) L_alarm
  | L_alarm => goto (emit p [Alarm 1]) L_time
  | L_time => goto (with_env p (set_last_update_time (gl_env p) now))
                L_new_logtop
  | L_new_logtop =>
      goto (with_env (emit p [NewLogtop (history_size (gl_env p))])
              (set_logtop (gl_env p) (Some (history_size (gl_env p)))))
        L_curses_setup
  | L_curses_setup => goto (emit p (main_curses_setup (gl_env p))) L_run
  | L_run =>
      match getline (stdin p) with
      | Some (line, rest) =>
          with_stdin (emit p [LogtopFeed (fed_line line)]) rest
      | None => goto p L_exit_curses
      end
  | L_exit_curses => goto (emit p (at_exit_curses (gl_env p))) L_exit_report
  | L_exit_report => goto (emit p (at_exit_report (gl_env p))) L_exit_delete
  | L_exit_delete => goto (emit p (at_exit_delete (gl_env p))) L_exit_flush
  | L_exit_flush => goto (emit p (at_exit_flush (gl_env p))) L_return
  | L_return => with_state p (Exited EXIT_SUCCESS)
  end.

(** A signal is delivered: its handler runs to completion, or the default
    action ends the process. *)
Definition deliver (sig : signal) (now : Z) (p : process) : process :=
  match disposition p sig with
  | SIG_DFL => with_state p (Killed sig)
  | H_on_sigint => emit p (on_sigint (gl_env p) sig)
  | H_update_display =>
      let (e, evs) := update_display (gl_env p) now in
      emit (with_env p e) evs
  end.

(** What can happen next: [main] executes its next statement, an interrupt
    arrives from outside, or the pending alarm expires. *)
Inductive action := Step | Interrupt | Tick.

Definition step (inp : input) (p : process) (ta : Z * action) : process :=
  match state p with
  | Running =>
      match snd ta with
      | Step => main_step inp (fst ta) p
      | Interrupt => deliver SIGINT (fst ta) p
      | Tick =>
          if alarm_armed p then deliver SIGALRM (fst ta) (disarm p) else p
      end
  | _ => p
  end.

(** The statements of [main] that precede the installation of the handler
    of SIGALRM. *)
Definition before_handlers (l : label) : bool :=
  match l with
  | L_parse_args | L_sighandler_int | L_sighandler_alrm => true
  | _ => false
  end.

(** What holds of the process as long as no interrupt arrives: it runs or
    has returned from [main], [gl_env] is untouched until [parse_args] has
    run, and the alarm is not pending before the handler of SIGALRM is
    installed. *)
Definition undisturbed (p : process) : Prop :=
  (pc p = L_parse_args -> gl_env p = env0)
  /\ (state p = Running \/ state p = Exited EXIT_SUCCESS)
  /\ ((disp_alrm p = H_update_display /\ before_handlers (pc p) = false)
      \/ (alarm_armed p = false /\ before_handlers (pc p) = true)).

(** Before [parse_args] has run, [gl_env] is untouched, SIGINT has its
    default disposition and no alarm is pending. *)
Definition unstarted (p : process) : Prop :=
  pc p = L_parse_args ->
  gl_env p = env0 /\ disp_int p = SIG_DFL /\ alarm_armed p = false.

(** An upper bound on the number of statements [main] still has to execute
    before the process ends. *)
Definition remaining (p : process) : nat :=
  match state p with
  | Running =>
      match pc p with
      | L_parse_args => 13 + length (stdin p)
      | L_sighandler_int => 12 + length (stdin p)
      | L_sighandler_alrm => 11 + length (stdin p)
      | L_alarm => 10 + length (stdin p)
      | L_time => 9 + length (stdin p)
      | L_new_logtop => 8 + length (stdin p)
      | L_curses_setup => 7 + length (stdin p)
      | L_run => 6 + length (stdin p)
      | L_exit_curses => 5
      | L_exit_report => 4
      | L_exit_delete => 3
      | L_exit_flush => 2
      | L_return => 1
      end
  | _ => 0
  end.

Definition is_step (ta : Z * action) : bool :=
  match snd ta with Step => true | _ => false end.

Definition is_interrupt (ta : Z * action) : bool :=
  match snd ta with Interrupt => true | _ => false end.

(** A schedule lists the actions in the order they happen, each with the
    reading of the clock at that moment. *)
Definition schedule := list (Z * action).

Definition exec (inp : input) (p : process) (sch : schedule) : process :=
  fold_left (step inp) sch p.

Definition execution (inp : input) (sch : schedule) : process :=
  exec inp (start inp) sch.

Fixpoint nondecreasing (clock : list Z) : bool :=
  match clock with
  | t :: ((t' :: _) as tl) => (t <=? t') && nondecreasing tl
  | _ => true
  end.

Definition clock_of (sch : schedule) : list Z := map fst sch.

(** ** Sequences of timer ticks *)

Definition is_redraw (ev : event) : bool :=
  match ev with
  | CursesUpdate | StdoutUpdate _ _ => true
  | _ => false
  end.

(** [update_display] called once per clock reading; the result lists the
    readings at which it redrew. *)
Fixpoint redraw_times (e : env_t) (clock : list Z) : list Z :=
  match clock with
  | [] => []
  | now :: tl =>
      let (e', evs) := update_display e now in
      (if existsb is_redraw evs then [now] else []) ++ redraw_times e' tl
  end.

Definition in_window (w len t : Z) : bool := (w <=? t) && (t <? w + len).


(** Text literals as arrays of bytes. *)
Definition bytes (s : string) : list ascii := list_ascii_of_string s.
Arguments bytes s%_string.

(** ** Counting the calls of the lifecycle *)

Definition count_events (f : event -> bool) (evs : list event) : nat :=
  length (filter f evs).

Definition is_setup (ev : event) : bool :=
  match ev with CursesSetup => true | _ => false end.

Definition is_release (ev : event) : bool :=
  match ev with CursesRelease => true | _ => false end.

Definition is_delete (ev : event) : bool :=
  match ev with DeleteLogtop => true | _ => false end.

(** The final report is the only call of [stdout_update] outside
    [update_display]; in interactive mode it is [stdout_update(10, 0)]. *)
Definition is_final_report (ev : event) : bool :=
  match ev with StdoutUpdate 10 0 => true | _ => false end.

(** [main] is past main.c:203-204. *)
Definition setup_done (l : label) : bool :=
  match l with
  | L_run | L_exit_curses | L_exit_report | L_exit_delete | L_exit_flush
  | L_return => true
  | _ => false
  end.

(** [main] is past main.c:178-179 of its own call of [at_exit]. *)
Definition release_done (l : label) : bool :=
  match l with
  | L_exit_report | L_exit_delete | L_exit_flush | L_return => true
  | _ => false
  end.

(** [main] has not yet installed [on_sigint]. *)
Definition before_sigint (l : label) : bool :=
  match l with
  | L_parse_args | L_sighandler_int => true
  | _ => false
  end.

(** What an undisturbed run keeps true about the curses lifecycle, for the
    configuration [e0] that [parse_args] returned. *)
Definition lifecycle (e0 : env_t) (p : process) : Prop :=
  (pc p <> L_parse_args ->
   quiet (gl_env p) = quiet e0
   /\ line_by_line (gl_env p) = line_by_line e0)
  /\ count_events is_setup (trace p)
     = (if setup_done (pc p) then length (main_curses_setup e0) else O)
  /\ count_events is_release (trace p)
     = (if release_done (pc p) then length (at_exit_curses e0) else O)
  /\ (before_sigint (pc p) = false -> disp_int p = H_on_sigint)
  /\ (state p = Exited EXIT_SUCCESS -> pc p = L_return).

(** ** Sample configurations and inputs *)

(** Interactive mode, one redraw every 3 seconds, last redraw at 10. *)
Definition env_interactive : env_t := mk_env 100 0 10 0 3 None.

(** The same with [-q]. *)
Definition env_quiet : env_t := mk_env 100 1 10 0 3 None.

(** [-l 2]: two results per line. *)
Definition env_lines : env_t := mk_env 100 0 10 2 3 None.

(** No option, one line of input. *)
Definition input_plain : input :=
  mk_input 10000 [] false (bytes "a" ++ [LF]).

(** [logtop -q] on the same input. *)
Definition input_quiet : input :=
  mk_input 10000 [mk_opt "q" []] false (bytes "a" ++ [LF]).

(** [logtop -i abc -s -5 -l -3]. *)
Definition input_bad_values : input :=
  mk_input 10000
    [mk_opt "i" (bytes "abc"); mk_opt "s" (bytes "-5");
     mk_opt "l" (bytes "-3")]
    false (bytes "a" ++ [LF]).

(** [logtop -q -x]: [getopt_long] answers ["?"] for the unknown option. *)
Definition input_unknown : input :=
  mk_input 10000 [mk_opt "q" []; mk_opt "?" []] false (bytes "a" ++ [LF]).

(** [main] executes [n] statements at clock reading [now], undisturbed. *)
Definition steps (now : Z) (n : nat) : schedule := repeat (now, Step) n.

(** ** Reading the options *)

(** The argument of the last option [c] among [opts], converted by [atoi];
    [dflt] when [c] does not occur. *)
Definition last_value (c : ascii) (opts : list getopt_result) (dflt : Z) : Z :=
  fold_left (fun acc o => if Ascii.eqb (opt o) c then atoi (optarg o) else acc)
    opts dflt.

Definition has_option (c : ascii) (opts : list getopt_result) : bool :=
  existsb (fun o => Ascii.eqb (opt o) c) opts.

(** ** A run nothing interrupts *)

(** The calls [main] makes from main.c:198 on when no signal arrives, for
    the configuration [e] that [parse_args] returned. *)
Definition main_calls (e : env_t) (input : list ascii) : list event :=
  setup_sighandler SIGINT 0 (Some H_on_sigint)
  ++ setup_sighandler SIGALRM SA_RESTART (Some H_update_display)
  ++ [Alarm 1] ++ [NewLogtop (history_size e)]
  ++ main_curses_setup e ++ run input ++ at_exit e.

(** The calls of [main_calls] that a process has still to make. *)
Definition pending (e : env_t) (p : process) : list event :=
  match state p with
  | Running =>
      match pc p with
      | L_parse_args | L_sighandler_int => main_calls e (stdin p)
      | L_sighandler_alrm =>
          setup_sighandler SIGALRM SA_RESTART (Some H_update_display)
          ++ [Alarm 1] ++ [NewLogtop (history_size e)]
          ++ main_curses_setup e ++ run (stdin p) ++ at_exit e
      | L_alarm =>
          [Alarm 1] ++ [NewLogtop (history_size e)]
          ++ main_curses_setup e ++ run (stdin p) ++ at_exit e
      | L_time | L_new_logtop =>
          [NewLogtop (history_size e)]
          ++ main_curses_setup e ++ run (stdin p) ++ at_exit e
      | L_curses_setup => main_curses_setup e ++ run (stdin p) ++ at_exit e
      | L_run => run (stdin p) ++ at_exit e
      | L_exit_curses => at_exit e
      | L_exit_report =>
          at_exit_report e ++ at_exit_delete e ++ at_exit_flush e
      | L_exit_delete => at_exit_delete e ++ at_exit_flush e
      | L_exit_flush => at_exit_flush e
      | L_return => []
      end
  | _ => []
  end.

(** The settings of [gl_env] are those of [e] once [parse_args] has run,
    and the engine handle is null until [new_logtop] has returned. *)
Definition configured (e : env_t) (p : process) : Prop :=
  pc p <> L_parse_args ->
  quiet (gl_env p) = quiet e
  /\ line_by_line (gl_env p) = line_by_line e
  /\ interval (gl_env p) = interval e
  /\ history_size (gl_env p) = history_size e
  /\ logtop (gl_env p)
     = (match pc p with
        | L_sighandler_int | L_sighandler_alrm | L_alarm | L_time
        | L_new_logtop => None
        | _ => Some (history_size e)
        end).

(** ** The timer *)

(** The alarm is pending only once [update_display] handles SIGALRM, SIGALRM
    has not ended the process, and only [on_sigint] ever handles SIGINT. *)
Definition timer_safe (p : process) : Prop :=
  (before_handlers (pc p) = false -> disp_alrm p = H_update_display)
  /\ (before_handlers (pc p) = true ->
      alarm_armed p = false /\ disp_alrm p <> H_on_sigint)
  /\ state p <> Killed SIGALRM
  /\ (disp_int p = SIG_DFL \/ disp_int p = H_on_sigint).

(** [main] is past [alarm(1)] (main.c:200). *)
Definition alarm_passed (l : label) : bool :=
  match l with
  | L_parse_args | L_sighandler_int | L_sighandler_alrm | L_alarm => false
  | _ => true
  end.

(** The calls [update_display] makes when it redraws, apart from
    [stdout_update], which [at_exit] makes too. *)
Definition is_periodic (ev : event) : bool :=
  match ev with
  | CursesUpdate | Alarm _ => true
  | _ => false
  end.

(** ** The engine *)

Definition is_flush (ev : event) : bool :=
  match ev with Fflush => true | _ => false end.

(** How a trace has used the engine: whether [new_logtop] and
    [delete_logtop] were called, and whether [logtop_feed] was ever called
    before the former or after the latter. *)
Record engine_use := mk_use {
  created : bool;
  deleted : bool;
  fed_out_of_life : bool
}.

Definition engine_event (u : engine_use) (ev : event) : engine_use :=
  match ev with
  | NewLogtop _ => mk_use true (deleted u) (fed_out_of_life u)
  | DeleteLogtop => mk_use (created u) true (fed_out_of_life u)
  | LogtopFeed _ =>
      mk_use (created u) (deleted u)
        (fed_out_of_life u || negb (created u) || deleted u)
  | _ => u
  end.

Definition engine_use_of (tr : list event) : engine_use :=
  fold_left engine_event tr (mk_use false false false).

(** [main] is past [new_logtop] (main.c:202). *)
Definition engine_created (l : label) : bool :=
  match l with
  | L_parse_args | L_sighandler_int | L_sighandler_alrm | L_alarm | L_time
  | L_new_logtop => false
  | _ => true
  end.

(** [main] is past the [delete_logtop] of its own [at_exit] (main.c:184). *)
Definition delete_done (l : label) : bool :=
  match l with
  | L_exit_flush | L_return => true
  | _ => false
  end.

(** What every execution keeps true of the use of the engine. *)
Definition engine_safe (p : process) : Prop :=
  fed_out_of_life (engine_use_of (trace p)) = false
  /\ (state p = Running ->
      created (engine_use_of (trace p)) = engine_created (pc p)
      /\ deleted (engine_use_of (trace p)) = delete_done (pc p)).

(** What an undisturbed run keeps true of the end of [at_exit]. *)
Definition teardown (p : process) : Prop :=
  count_events is_delete (trace p)
  = (if delete_done (pc p) then 1%nat else O)
  /\ count_events is_flush (trace p)
     = (match pc p with L_return => 1%nat | _ => O end).

(** [logtop -i 2]. *)
Definition input_slow : input :=
  mk_input 10000 [mk_opt "i" (bytes "2")] false (bytes "a" ++ [LF]).

(** ** Curses *)

Definition is_curses (ev : event) : bool :=
  match ev with
  | CursesSetup | CursesUpdate | CursesRelease => true
  | _ => false
  end.

(** [logtop -l 2]. *)
Definition input_lines : input :=
  mk_input 10000 [mk_opt "l" (bytes "2")] false (bytes "a" ++ [LF]).

(** ** The assignment of main.c:201, call and store apart *)

(** [gl_env.last_update_time = time(NULL)] is a call of [time] followed by
    a store, and a signal can be delivered between the two. [time_read]
    holds the value [time] returned while the store is still to come. *)
Record fine_process := mk_fine {
  proc : process;
  time_read : option Z
}.

(** As [step], except that the statement of main.c:201 takes two moves of
    [main]: the first reads the clock, the second stores what was read, and
    ticks and interrupts may come in between. *)
Definition fine_step (inp : input) (f : fine_process) (ta : Z * action)
    : fine_process :=
  match state (proc f), snd ta, pc (proc f), time_read f with
  | Running, Step, L_time, None => mk_fine (proc f) (Some (fst ta))
  | Running, Step, L_time, Some t => mk_fine (main_step inp t (proc f)) None
  | _, _, _, _ => mk_fine (step inp (proc f) ta) (time_read f)
  end.

Definition fine_execution (inp : input) (sch : schedule) : fine_process :=
  fold_left (fine_step inp) sch (mk_fine (start inp) None).

(** [main] arms the alarm and calls [time] while the clock reads 5; the
    alarm expires when the clock reads 6, before [main] has stored the
    value; then [main] goes on. *)
Definition schedule_late_store : schedule :=
  steps 5 5 ++ [(6, Tick); (6, Step)].

(** * Properties *)

Ltac split_all := repeat match goal with |- _ /\ _ => split end.

(** ** Ingestion *)

Section Ingestion.

Lemma c_str_app_NUL (k r : list ascii) : c_str (k ++ NUL :: r) = c_str k.
Proof.
  induction k as [|c k IH]; simpl; [reflexivity|].
  destruct (Ascii.eqb c NUL); [reflexivity | now rewrite IH].
Qed.

Lemma c_str_no_NUL (k : list ascii) :
  forallb (fun c => negb (Ascii.eqb c NUL)) k = true -> c_str k = k.
Proof.
  induction k as [|c k IH]; simpl; [reflexivity|].
  intros H. apply andb_prop in H. destruct H as [Hc Hk].
  destruct (Ascii.eqb c NUL); [discriminate | now rewrite IH].
Qed.

Lemma store_middle (l l' : buffer) (a c : ascii) :
  store (l ++ a :: l') (length l) c = l ++ c :: l'.
Proof. induction l as [|x l IH]; simpl; [reflexivity | now rewrite IH]. Qed.

(** The inner loop removes the longest run of line feeds and carriage
    returns that ends the line, and nothing else. *)
Lemma strip_loop_split (pre : list ascii) :
  forall r,
  exists kept eols,
    pre = kept ++ eols
    /\ forallb is_eol eols = true
    /\ (forall k c, kept = k ++ [c] -> is_eol c = false)
    /\ c_str (fst (strip_loop (pre ++ NUL :: r) (length pre))) = c_str kept.
Proof.
  induction pre as [|c pre IH] using rev_ind; intros r.
  - exists [], []. repeat split.
    intros [|x k] c H; discriminate H.
  - rewrite length_app, Nat.add_1_r. cbn [strip_loop].
    rewrite <- app_assoc. cbn [app]. rewrite nth_middle.
    destruct (is_eol c) eqn:Hc.
    + rewrite store_middle.
      destruct (IH (NUL :: r)) as (kept & eols & Hpre & Heols & Hkept & Hfed).
      exists kept, (eols ++ [c]). repeat split.
      * rewrite Hpre, app_assoc. reflexivity.
      * rewrite forallb_app, Heols. simpl. now rewrite Hc.
      * exact Hkept.
      * exact Hfed.
    + exists (pre ++ [c]), []. repeat split.
      * now rewrite app_nil_r.
      * intros k c' H. apply app_inj_tail in H. destruct H as [_ H].
        now subst c'.
      * cbn [fst].
        change (pre ++ c :: NUL :: r) with (pre ++ [c] ++ NUL :: r).
        rewrite app_assoc. apply c_str_app_NUL.
Qed.

Lemma getline_split (s line rest : list ascii) :
  getline s = Some (line, rest) -> s = line ++ rest /\ line <> [].
Proof.
  revert line rest. induction s as [|c s IH]; simpl; intros line rest H.
  - discriminate.
  - destruct (Ascii.eqb c LF).
    + inversion H; subst. split; [reflexivity | discriminate].
    + destruct (getline s) as [[l r]|] eqn:E.
      * inversion H; subst. destruct (IH l rest eq_refl) as [-> _].
        split; [reflexivity | discriminate].
      * inversion H; subst. destruct s; [|simpl in E].
        -- split; [reflexivity | discriminate].
        -- destruct (Ascii.eqb a LF); [discriminate|].
           destruct (getline s) as [[? ?]|]; discriminate.
Qed.

Lemma getline_shorter (s line rest : list ascii) :
  getline s = Some (line, rest) -> (length rest < length s)%nat.
Proof.
  intros H. destruct (getline_split _ _ _ H) as [-> Hne].
  rewrite length_app. destruct line; [congruence | simpl; lia].
Qed.

Lemma run_loop_feeds (fuel : nat) :
  forall s,
    fst (run_loop fuel s)
    = map (fun line => LogtopFeed (fed_line line)) (getlines fuel s).
Proof.
  induction fuel as [|fuel IH]; intros s; simpl; [reflexivity|].
  destruct (getline s) as [[line rest]|]; [|reflexivity].
  specialize (IH rest). destruct (run_loop fuel rest) as [evs rest'].
  simpl in *. now rewrite IH.
Qed.

(** [length stdin] iterations are enough: the loop is left because
    [getline] returned -1. *)
Lemma run_loop_eof (fuel : nat) :
  forall s, (length s <= fuel)%nat ->
    getline (snd (run_loop fuel s)) = None.
Proof.
  induction fuel as [|fuel IH]; intros s Hlen.
  - destruct s; [reflexivity | simpl in Hlen; lia].
  - simpl. destruct (getline s) as [[line rest]|] eqn:E.
    + pose proof (getline_shorter _ _ _ E) as Hlt.
      specialize (IH rest ltac:(lia)).
      destruct (run_loop fuel rest) as [evs rest']. exact IH.
    + exact E.
Qed.

Lemma getlines_all (fuel : nat) :
  forall s, (length s <= fuel)%nat -> concat (getlines fuel s) = s.
Proof.
  induction fuel as [|fuel IH]; intros s Hlen.
  - destruct s; [reflexivity | simpl in Hlen; lia].
  - simpl. destruct (getline s) as [[line rest]|] eqn:E.
    + pose proof (getline_shorter _ _ _ E) as Hlt.
      destruct (getline_split _ _ _ E) as [-> _].
      simpl. now rewrite IH by lia.
    + destruct s; [reflexivity | simpl in E].
      destruct (Ascii.eqb a LF); [discriminate|].
      destruct (getline s) as [[? ?]|]; discriminate.
Qed.

End Ingestion.

(** C6: every line [getline] returns is split into what is kept and the
    longest trailing run of carriage returns and line feeds, in any mix and
    number; the kept part does not end in either byte, and it is what
    [logtop_feed] receives as a C string (the kept part itself when the line
    has no NUL byte). The raw lines "abc\r\n", "abc\n" and "abc\r" are all
    fed as "abc". *)
Theorem run_strips_trailing_eol :
  (forall line,
    exists kept eols,
      line = kept ++ eols
      /\ forallb is_eol eols = true
      /\ (forall k c, kept = k ++ [c] -> is_eol c = false)
      /\ fed_line line = c_str kept
      /\ (forallb (fun c => negb (Ascii.eqb c NUL)) line = true ->
          fed_line line = kept))
  /\ fed_line (bytes "abc" ++ [CR; LF]) = bytes "abc"
  /\ fed_line (bytes "abc" ++ [LF]) = bytes "abc"
  /\ fed_line (bytes "abc" ++ [CR]) = bytes "abc"
  /\ run (bytes "abc" ++ [CR; LF] ++ bytes "abc" ++ [LF] ++ bytes "abc"
          ++ [CR])
     = [LogtopFeed (bytes "abc"); LogtopFeed (bytes "abc");
        LogtopFeed (bytes "abc")].
Proof.
  split; [|repeat split; reflexivity].
  intros line. unfold fed_line.
  destruct (strip_loop_split line []) as (kept & eols & Hl & He & Hk & Hf).
  exists kept, eols. repeat split; try assumption.
  intros Hnul. rewrite Hf. apply c_str_no_NUL.
  rewrite Hl, forallb_app in Hnul. now apply andb_prop in Hnul.
Qed.

Lemma run_strips_trailing_eol_witness :
  forallb (fun c => negb (Ascii.eqb c NUL)) (bytes "abc" ++ [CR; LF; LF; CR])
  = true
  /\ exists kept eols,
      bytes "abc" ++ [CR; LF; LF; CR] = kept ++ eols
      /\ forallb is_eol eols = true
      /\ (forall k c, kept = k ++ [c] -> is_eol c = false)
      /\ fed_line (bytes "abc" ++ [CR; LF; LF; CR]) = c_str kept
      /\ (forallb (fun c => negb (Ascii.eqb c NUL))
            (bytes "abc" ++ [CR; LF; LF; CR]) = true ->
          fed_line (bytes "abc" ++ [CR; LF; LF; CR]) = kept).
Proof.
  split.
  - reflexivity.
  - exact (proj1 run_strips_trailing_eol (bytes "abc" ++ [CR; LF; LF; CR])).
Defined.

Lemma fed_line_only_eol (line : list ascii) :
  forallb is_eol line = true -> fed_line line = [].
Proof.
  intros Hall. unfold fed_line.
  destruct (strip_loop_split line []) as (kept & eols & Hl & He & Hk & Hf).
  rewrite Hf. subst line. rewrite forallb_app in Hall.
  apply andb_prop in Hall. destruct Hall as [Hkept _].
  destruct kept as [|c k _] using rev_ind; [reflexivity|].
  rewrite forallb_app in Hkept. apply andb_prop in Hkept.
  destruct Hkept as [_ Hc]. simpl in Hc.
  rewrite (Hk k c eq_refl) in Hc. discriminate.
Qed.

(** C9: the lines [getline] returns make up the whole input, the loop of
    [run] ends because [getline] returned -1, and the trace of [run] has one
    [logtop_feed] per line read, in order, none skipped; a line made only of
    carriage returns and line feeds is fed as the empty string. *)
Theorem run_feeds_every_line (stdin : list ascii) :
  concat (getlines (length stdin) stdin) = stdin
  /\ getline (snd (run_loop (length stdin) stdin)) = None
  /\ run stdin
     = map (fun line => LogtopFeed (fed_line line))
         (getlines (length stdin) stdin)
  /\ length (run stdin) = length (getlines (length stdin) stdin)
  /\ (forall i line,
      nth_error (getlines (length stdin) stdin) i = Some line ->
      forallb is_eol line = true ->
      nth_error (run stdin) i = Some (LogtopFeed [])).
Proof.
  assert (Hrun : run stdin
                 = map (fun line => LogtopFeed (fed_line line))
                     (getlines (length stdin) stdin))
    by apply run_loop_feeds.
  repeat split.
  - apply getlines_all. lia.
  - apply run_loop_eof. lia.
  - exact Hrun.
  - rewrite Hrun. apply length_map.
  - intros i line Hi Heol. rewrite Hrun.
    rewrite <- (fed_line_only_eol line Heol).
    apply (map_nth_error (fun line => LogtopFeed (fed_line line))). exact Hi.
Qed.

Lemma run_feeds_every_line_witness :
  nth_error (getlines 5 (bytes "a" ++ [LF; CR; LF] ++ bytes "b")) 1
  = Some [CR; LF]
  /\ forallb is_eol [CR; LF] = true
  /\ nth_error (run (bytes "a" ++ [LF; CR; LF] ++ bytes "b")) 1
     = Some (LogtopFeed []).
Proof.
  split; [reflexivity | split; [reflexivity|]].
  exact (proj2 (proj2 (proj2 (proj2
    (run_feeds_every_line (bytes "a" ++ [LF; CR; LF] ++ bytes "b")))))
    1%nat [CR; LF] eq_refl eq_refl).
Defined.

(** ** The update scheduler *)

Section Scheduler.

Lemma update_display_quiet (e : env_t) (now : Z) :
  truthy (quiet e) = true -> update_display e now = (e, []).
Proof. intros Hq. unfold update_display. now rewrite Hq. Qed.

Lemma update_display_early (e : env_t) (now : Z) :
  truthy (quiet e) = false ->
  now < last_update_time e + interval e ->
  update_display e now = (e, []).
Proof.
  intros Hq Hlt. unfold update_display. rewrite Hq.
  apply Z.ltb_lt in Hlt. now rewrite Hlt.
Qed.

Lemma update_display_due (e : env_t) (now : Z) :
  truthy (quiet e) = false ->
  last_update_time e + interval e <= now ->
  update_display e now
  = (set_last_update_time e now,
     [if truthy (line_by_line e)
      then StdoutUpdate (line_by_line e) 1 else CursesUpdate; Alarm 1]).
Proof.
  intros Hq Hle. unfold update_display. rewrite Hq.
  apply Z.ltb_ge in Hle. rewrite Hle. cbn [set_last_update_time line_by_line].
  now destruct (truthy (line_by_line e)).
Qed.

(** The three ways through [update_display]. *)
Lemma update_display_cases (e : env_t) (now : Z) :
  update_display e now = (e, [])
  \/ (truthy (quiet e) = false
      /\ last_update_time e + interval e <= now
      /\ update_display e now
         = (set_last_update_time e now,
            [if truthy (line_by_line e)
             then StdoutUpdate (line_by_line e) 1 else CursesUpdate;
             Alarm 1])).
Proof.
  destruct (truthy (quiet e)) eqn:Hq.
  - left. now apply update_display_quiet.
  - destruct (Z.lt_ge_cases now (last_update_time e + interval e)) as [H|H].
    + left. now apply update_display_early.
    + right. repeat split; try assumption. now apply update_display_due.
Qed.

(** Two successive redraws are at least [interval] apart, and the first one
    is at least [interval] after the time stamp the sequence starts with. *)
Lemma redraw_times_spaced (clock : list Z) :
  forall e,
    Sorted (fun a b => a + interval e <= b) (redraw_times e clock)
    /\ HdRel (fun a b => a + interval e <= b) (last_update_time e)
         (redraw_times e clock).
Proof.
  induction clock as [|now tl IH]; intros e; cbn [redraw_times].
  - split; constructor.
  - destruct (update_display_cases e now) as [H | (Hq & Hle & H)]; rewrite H.
    + cbn [existsb app]. apply IH.
    + destruct (IH (set_last_update_time e now)) as [Hs Hh].
      cbn [interval last_update_time set_last_update_time] in Hs, Hh.
      replace (existsb is_redraw _) with true
        by (destruct (truthy (line_by_line e)); reflexivity).
      cbn [app]. split; constructor; assumption.
Qed.

Lemma window_after (len w : Z) (l : list Z) :
  0 < len ->
  forall lo,
    Sorted (fun a b => a + len <= b) l ->
    HdRel (fun a b => a + len <= b) lo l ->
    w <= lo ->
    filter (in_window w len) l = [].
Proof.
  intros Hlen. induction l as [|a l IH]; intros lo Hs Hh Hw; [reflexivity|].
  apply Sorted_inv in Hs. destruct Hs as [Hs Ha].
  apply HdRel_inv in Hh. cbn [filter]. unfold in_window at 1.
  replace (a <? w + len) with false by (symmetry; apply Z.ltb_ge; lia).
  rewrite andb_false_r. apply (IH a); [assumption | assumption | lia].
Qed.

Lemma window_at_most_one (len w : Z) (l : list Z) :
  Sorted (fun a b => a + len <= b) l ->
  (length (filter (in_window w len) l) <= 1)%nat.
Proof.
  destruct (Z.lt_ge_cases 0 len) as [Hlen | Hlen].
  - induction l as [|a l IH]; intros Hs; [simpl; lia|].
    apply Sorted_inv in Hs. destruct Hs as [Hs Ha]. cbn [filter].
    destruct (in_window w len a) eqn:Hin.
    + unfold in_window in Hin. apply andb_prop in Hin.
      destruct Hin as [Hw _]. apply Z.leb_le in Hw.
      rewrite (window_after len w l Hlen a Hs Ha Hw). simpl. lia.
    + now apply IH.
  - intros _. replace (filter (in_window w len) l) with (@nil Z);
      [simpl; lia|].
    induction l as [|a l IH]; [reflexivity|]. cbn [filter].
    unfold in_window at 1.
    destruct (w <=? a) eqn:E1; destruct (a <? w + len) eqn:E2;
      cbn [andb]; try exact IH.
    apply Z.leb_le in E1. apply Z.ltb_lt in E2. lia.
Qed.

Lemma redraw_times_quiet (clock : list Z) (e : env_t) :
  truthy (quiet e) = true -> redraw_times e clock = [].
Proof.
  intros Hq. induction clock as [|now tl IH]; [reflexivity|].
  cbn [redraw_times]. rewrite (update_display_quiet e now Hq). exact IH.
Qed.

End Scheduler.

Lemma redraw_times_incl (clock : list Z) :
  forall e t, In t (redraw_times e clock) -> In t clock.
Proof.
  induction clock as [|now tl IH]; intros e t; cbn [redraw_times];
    [intros []|].
  destruct (update_display e now) as [e' evs].
  rewrite in_app_iff. intros [H | H].
  - destruct (existsb is_redraw evs); [|destruct H].
    destruct H as [<- | []]. now left.
  - right. now apply (IH e').
Qed.

Lemma filter_all {A} (f : A -> bool) (l : list A) :
  (forall x, In x l -> f x = true) -> filter f l = l.
Proof.
  induction l as [|a l IH]; intros H; [reflexivity|]. cbn [filter].
  rewrite (H a (or_introl eq_refl)). f_equal. apply IH.
  intros x Hx. apply H. now right.
Qed.

(** C4: a tick outside quiet mode does nothing when less than [interval]
    seconds have passed since the time stamp; otherwise it sets the time
    stamp to the current time, redraws once and re-arms the timer. Over any
    sequence of ticks, at most one redraw falls in any window of [interval]
    seconds, so ticks that all lie in one window cause at most one redraw;
    in quiet mode no tick redraws. *)
Theorem update_display_throttles (e : env_t) :
  (forall now,
     truthy (quiet e) = false ->
     now - last_update_time e < interval e ->
     update_display e now = (e, []))
  /\ (forall now,
     truthy (quiet e) = false ->
     ~ now - last_update_time e < interval e ->
     exists redraw,
       is_redraw redraw = true
       /\ update_display e now
          = (set_last_update_time e now, [redraw; Alarm 1]))
  /\ (forall clock w,
       (length (filter (in_window w (interval e)) (redraw_times e clock))
        <= 1)%nat)
  /\ (forall clock w,
       (forall t, In t clock -> in_window w (interval e) t = true) ->
       (length (redraw_times e clock) <= 1)%nat)
  /\ (truthy (quiet e) = true -> forall clock, redraw_times e clock = []).
Proof.
  assert (Hwin : forall clock w,
            (length (filter (in_window w (interval e))
                       (redraw_times e clock)) <= 1)%nat).
  { intros clock w. apply window_at_most_one.
    apply (redraw_times_spaced clock e). }
  repeat split.
  - intros now Hq Hlt. apply update_display_early; [assumption | lia].
  - intros now Hq Hge.
    exists (if truthy (line_by_line e)
            then StdoutUpdate (line_by_line e) 1 else CursesUpdate).
    split; [now destruct (truthy (line_by_line e))|].
    apply update_display_due; [assumption | lia].
  - exact Hwin.
  - intros clock w Hall. specialize (Hwin clock w).
    rewrite filter_all in Hwin; [exact Hwin|].
    intros t Ht. apply Hall. exact (redraw_times_incl clock e t Ht).
  - intros Hq clock. now apply redraw_times_quiet.
Qed.

Lemma update_display_throttles_witness :
  update_display env_interactive 12 = (env_interactive, [])
  /\ (exists redraw,
       is_redraw redraw = true
       /\ update_display env_interactive 13
          = (set_last_update_time env_interactive 13, [redraw; Alarm 1]))
  /\ (length (redraw_times env_interactive [13; 14; 15]%Z) <= 1)%nat
  /\ redraw_times env_quiet [13; 14; 15; 16; 17] = [].
Proof.
  destruct (update_display_throttles env_interactive)
    as (H1 & H2 & _ & H4 & _).
  destruct (update_display_throttles env_quiet) as (_ & _ & _ & _ & H5).
  split; [|split; [|split]].
  - apply (H1 12); [reflexivity | simpl; lia].
  - apply (H2 13); [reflexivity | simpl; lia].
  - apply (H4 [13; 14; 15]%Z 13%Z). intros t Ht. simpl in Ht.
    destruct Ht as [<- | [<- | [<- | []]]]; reflexivity.
  - apply H5. reflexivity.
Defined.

(** C2, as stated, fails: after [logtop -q] has started (seven statements of
    [main]), the alarm is pending; when it expires, [update_display] returns
    at once and the timer is left disarmed. *)
Lemma quiet_tick_rearm_counterexample :
  state (execution input_quiet (steps 0 7)) = Running
  /\ truthy (quiet (gl_env (execution input_quiet (steps 0 7)))) = true
  /\ disp_alrm (execution input_quiet (steps 0 7)) = H_update_display
  /\ alarm_armed (execution input_quiet (steps 0 7)) = true
  /\ alarm_armed (execution input_quiet (steps 0 7 ++ [(1, Tick)])) = false
  /\ ~ In (Alarm 1)
        (snd (update_display (gl_env (execution input_quiet (steps 0 7))) 1)).
Proof.
  repeat split. intros H. exact H.
Qed.

(** C5, as stated, fails: with [-l 2], a redraw that is due calls
    [stdout_update(2, 1)], second argument 1 and not 0; it is the very call
    [at_exit] makes for the final report in this mode. *)
Lemma periodic_redraw_flag_counterexample :
  truthy (quiet env_lines) = false
  /\ truthy (line_by_line env_lines) = true
  /\ snd (update_display env_lines 13) = [StdoutUpdate 2 1; Alarm 1]
  /\ ~ In (StdoutUpdate (line_by_line env_lines) 0)
        (snd (update_display env_lines 13))
  /\ at_exit_report env_lines = [StdoutUpdate 2 1].
Proof.
  repeat split. intros [H | [H | []]]; discriminate H.
Qed.

(** C5, amended: a periodic redraw in line-by-line mode calls
    [stdout_update] once, with [line_by_line] as its first argument and 1 as
    its second, which is the call [at_exit] makes in that mode; and
    [update_display] never calls [stdout_update] with other arguments. *)
Theorem periodic_redraw_line_mode (e : env_t) (now : Z) :
  truthy (quiet e) = false ->
  truthy (line_by_line e) = true ->
  last_update_time e + interval e <= now ->
  snd (update_display e now) = [StdoutUpdate (line_by_line e) 1; Alarm 1]
  /\ at_exit_report e = [StdoutUpdate (line_by_line e) 1]
  /\ (forall e' now' nb flag,
       In (StdoutUpdate nb flag) (snd (update_display e' now')) ->
       nb = line_by_line e' /\ flag = 1).
Proof.
  intros Hq Hl Hdue. split; [|split].
  - rewrite (update_display_due e now Hq Hdue), Hl. reflexivity.
  - unfold at_exit_report. now rewrite Hl.
  - intros e' now' nb flag Hin.
    destruct (update_display_cases e' now') as [H | (_ & _ & H)];
      rewrite H in Hin; cbn [snd] in Hin; [destruct Hin|].
    destruct (truthy (line_by_line e'));
      destruct Hin as [Hin | [Hin | []]]; try discriminate Hin.
    inversion Hin. split; reflexivity.
Qed.

Lemma periodic_redraw_line_mode_witness :
  snd (update_display env_lines 13) = [StdoutUpdate 2 1; Alarm 1]
  /\ at_exit_report env_lines = [StdoutUpdate 2 1].
Proof.
  destruct (periodic_redraw_line_mode env_lines 13 eq_refl eq_refl
              ltac:(simpl; lia)) as (H1 & H2 & _).
  split; [exact H1 | exact H2].
Defined.

(** ** Configuration *)

Section Configuration.

Lemma parse_opts_values (pre : list getopt_result) :
  forallb stores_value pre = true ->
  forall e, exists e',
    parse_opts e pre = ([], Continue e')
    /\ forall rest, parse_opts e (pre ++ rest) = parse_opts e' rest.
Proof.
  induction pre as [|o pre IH]; intros Hall e.
  - exists e. split; [reflexivity | intros rest; reflexivity].
  - cbn [forallb] in Hall. apply andb_prop in Hall.
    destruct Hall as [Ho Hpre]. unfold stores_value in Ho.
    cbn [parse_opts app].
    destruct (Ascii.eqb (opt o) "l"); [apply (IH Hpre)|].
    destruct (Ascii.eqb (opt o) "q"); [apply (IH Hpre)|].
    destruct (Ascii.eqb (opt o) "s"); [apply (IH Hpre)|].
    destruct (Ascii.eqb (opt o) "i"); [apply (IH Hpre)|].
    discriminate Ho.
Qed.

Lemma parse_opts_exit (opts : list getopt_result) :
  forall e evs code,
    parse_opts e opts = (evs, Exit code) ->
    evs = [UsageText code] \/ evs = [VersionText].
Proof.
  induction opts as [|o opts IH]; intros e evs code; cbn [parse_opts].
  - discriminate.
  - destruct (Ascii.eqb (opt o) "l"); [apply IH|].
    destruct (Ascii.eqb (opt o) "q"); [apply IH|].
    destruct (Ascii.eqb (opt o) "s"); [apply IH|].
    destruct (Ascii.eqb (opt o) "i"); [apply IH|].
    destruct (Ascii.eqb (opt o) "v");
      [intros H; inversion H; now right|].
    destruct (Ascii.eqb (opt o) "h"); intros H; inversion H; now left.
Qed.

Lemma parse_args_exit (dflt : Z) (e : env_t) (opts : list getopt_result)
    (tty : bool) (evs : list event) (code : Z) :
  parse_args dflt e opts tty = (evs, Exit code) ->
  evs = [UsageText code] \/ evs = [VersionText].
Proof.
  unfold parse_args.
  destruct (parse_opts _ opts) as [evs' [e' | code']] eqn:E.
  - destruct tty; intros H; inversion H. now left.
  - intros H. inversion H; subst. exact (parse_opts_exit _ _ _ _ E).
Qed.

(** When [parse_args] exits, nothing has been installed or armed, and
    nothing ever will be. *)
Lemma exit_in_parse_args (inp : input) (evs : list event) (code : Z) :
  parse_args (DEFAULT_HISTORY_SIZE inp) env0 (getopt_results inp)
    (stdin_isatty inp) = (evs, Exit code) ->
  forall sch p,
    (disp_int p = SIG_DFL /\ disp_alrm p = SIG_DFL /\ alarm_armed p = false
     /\ pc p = L_parse_args /\ gl_env p = env0
     /\ (trace p = [] \/ (trace p = evs /\ state p = Exited code))) ->
    let q := exec inp p sch in
    disp_int q = SIG_DFL /\ disp_alrm q = SIG_DFL /\ alarm_armed q = false
    /\ pc q = L_parse_args /\ gl_env q = env0
    /\ (trace q = [] \/ (trace q = evs /\ state q = Exited code)).
Proof.
  intros Hparse. induction sch as [|[now a] sch IH]; intros p Hp.
  - exact Hp.
  - cbn [exec fold_left]. apply IH.
    destruct Hp as (Hi & Ha & Harm & Hpc & Henv & Htr).
    unfold step. cbn [fst snd].
    destruct (state p) eqn:Hst;
      try (rewrite Hst; repeat split; assumption).
    destruct Htr as [Htr | [_ Hex]]; [|discriminate Hex].
    destruct a.
    + unfold main_step. rewrite Hpc, Henv, Hparse.
      destruct (parse_args_exit _ _ _ _ _ _ Hparse) as [-> | ->];
        cbn; rewrite Hi, Ha, Harm, Hpc, Henv, Htr;
        repeat split; right; split; reflexivity.
    + unfold deliver. cbn [disposition]. rewrite Hi.
      cbn. repeat split; try assumption. now left.
    + rewrite Harm. repeat split; try assumption. now left.
Qed.

End Configuration.

Lemma exec_finished (inp : input) (sch : schedule) :
  forall p, state p <> Running -> exec inp p sch = p.
Proof.
  induction sch as [|ta sch IH]; intros p Hp; [reflexivity|].
  cbn [exec fold_left].
  assert (Hstep : step inp p ta = p)
    by (unfold step; destruct (state p); [congruence | reflexivity ..]).
  rewrite Hstep. now apply IH.
Qed.

(** C7, as stated, fails: [logtop -i abc -s -5 -l -3] gets no usage text;
    [atoi] turns the values into 0, -5 and -3, the handlers are installed,
    the alarm is armed and the program runs to its normal end. *)
Lemma bad_flag_value_counterexample :
  parse_args 10000 env0 (getopt_results input_bad_values) false
  = ([], Continue (mk_env (-5) 0 0 (-3) 0 None))
  /\ state (execution input_bad_values (steps 0 4)) = Running
  /\ trace (execution input_bad_values (steps 0 4))
     = [Sigaction SIGINT 0 H_on_sigint;
        Sigaction SIGALRM SA_RESTART H_update_display; Alarm 1]
  /\ state (execution input_bad_values (steps 0 14)) = Exited EXIT_SUCCESS
  /\ ~ In (UsageText EXIT_FAILURE)
        (trace (execution input_bad_values (steps 0 14))).
Proof.
  split; [vm_compute; reflexivity|].
  split; [vm_compute; reflexivity|].
  split; [vm_compute; reflexivity|].
  split; [vm_compute; reflexivity|].
  vm_compute. intros H.
  repeat (destruct H as [H | H]; [discriminate H|]). exact H.
Qed.

(** C7, amended: [parse_args] prints the usage text and exits with
    [EXIT_FAILURE] when [getopt_long] returns a character the [switch] does
    not know (an unknown option or a missing argument) after options that
    only store a value, or when all options store a value and the input
    stream is a terminal. Values are never rejected: whatever the arguments
    of [-s], [-i] and [-l] are, [parse_args] returns normally when the input
    is not a terminal. Whenever [parse_args] exits, it does so in the first
    statement of [main]: no handler is ever installed and no alarm armed. *)
Theorem parse_args_usage_errors (inp : input) (pre : list getopt_result) :
  forallb stores_value pre = true ->
  (forall o post,
     getopt_results inp = pre ++ o :: post ->
     stores_value o = false ->
     Ascii.eqb (opt o) "v" = false ->
     Ascii.eqb (opt o) "h" = false ->
     parse_args (DEFAULT_HISTORY_SIZE inp) env0 (getopt_results inp)
       (stdin_isatty inp)
     = ([UsageText EXIT_FAILURE], Exit EXIT_FAILURE))
  /\ (getopt_results inp = pre ->
      stdin_isatty inp = true ->
      parse_args (DEFAULT_HISTORY_SIZE inp) env0 (getopt_results inp)
        (stdin_isatty inp)
      = ([UsageText EXIT_FAILURE], Exit EXIT_FAILURE))
  /\ (getopt_results inp = pre ->
      stdin_isatty inp = false ->
      exists e,
        parse_args (DEFAULT_HISTORY_SIZE inp) env0 (getopt_results inp)
          (stdin_isatty inp)
        = ([], Continue e))
  /\ (forall evs code,
      parse_args (DEFAULT_HISTORY_SIZE inp) env0 (getopt_results inp)
        (stdin_isatty inp)
      = (evs, Exit code) ->
      (forall sch,
         disp_int (execution inp sch) = SIG_DFL
         /\ disp_alrm (execution inp sch) = SIG_DFL
         /\ alarm_armed (execution inp sch) = false
         /\ (trace (execution inp sch) = []
             \/ trace (execution inp sch) = evs))
      /\ (forall now sch,
         state (execution inp ((now, Step) :: sch)) = Exited code
         /\ trace (execution inp ((now, Step) :: sch)) = evs)).
Proof.
  intros Hpre.
  destruct (parse_opts_values pre Hpre (mk_env 0 0 0 0 1 (logtop env0)))
    as (e' & Hcont & Hrest).
  split; [|split; [|split]].
  - intros o post -> Ho Hv Hh. unfold parse_args. rewrite Hrest.
    cbn [parse_opts]. unfold stores_value in Ho.
    destruct (Ascii.eqb (opt o) "l"); [discriminate Ho|].
    destruct (Ascii.eqb (opt o) "q"); [discriminate Ho|].
    destruct (Ascii.eqb (opt o) "s"); [discriminate Ho|].
    destruct (Ascii.eqb (opt o) "i"); [discriminate Ho|].
    rewrite Hv, Hh. reflexivity.
  - intros -> ->. unfold parse_args. rewrite Hcont. reflexivity.
  - intros -> ->. unfold parse_args. rewrite Hcont. eexists. reflexivity.
  - intros evs code Hparse. split.
    + intros sch.
      destruct (exit_in_parse_args inp evs code Hparse sch (start inp))
        as (Hi & Ha & Harm & _ & _ & Htr).
      { cbn. repeat split. now left. }
      repeat split; try assumption.
      destruct Htr as [Htr | [Htr _]]; [now left | now right].
    + intros now sch. unfold execution. cbn [exec fold_left].
      assert (Hstep : step inp (start inp) (now, Step)
                      = with_state (emit (start inp) evs) (Exited code)).
      { unfold step, main_step. cbn [state start pc gl_env snd fst].
        now rewrite Hparse. }
      change (fold_left (step inp) sch (step inp (start inp) (now, Step)))
        with (exec inp (step inp (start inp) (now, Step)) sch).
      rewrite Hstep, exec_finished by (cbn; discriminate).
      destruct (parse_args_exit _ _ _ _ _ _ Hparse) as [-> | ->];
        split; reflexivity.
Qed.

Lemma parse_args_usage_errors_witness :
  forallb stores_value [mk_opt "q" []] = true
  /\ parse_args 10000 env0 (getopt_results input_unknown) false
     = ([UsageText EXIT_FAILURE], Exit EXIT_FAILURE)
  /\ state (execution input_unknown [(0, Step); (0, Step); (1, Interrupt)])
     = Exited EXIT_FAILURE
  /\ trace (execution input_unknown [(0, Step); (0, Step); (1, Interrupt)])
     = [UsageText EXIT_FAILURE].
Proof.
  destruct (parse_args_usage_errors input_unknown [mk_opt "q" []] eq_refl)
    as (H1 & _ & _ & H4).
  pose proof (H1 (mk_opt "?" []) [] eq_refl eq_refl eq_refl eq_refl) as Hu.
  destruct (H4 _ _ Hu) as [_ H5].
  split; [reflexivity | split; [exact Hu|]].
  exact (H5 0 [(0, Step); (1, Interrupt)]).
Defined.

(** ** Shutdown *)

Section Shutdown.

Lemma emit_app (evs evs' : list event) (p : process) :
  emit p (evs ++ evs') = emit (emit p evs) evs'.
Proof. apply fold_left_app. Qed.

Lemma perform_trace (p : process) (ev : event) :
  trace (perform p ev) = trace p ++ [ev].
Proof.
  destruct ev as [[] ? ?| | | | | | | | | |sig| |]; try reflexivity.
  unfold perform. destruct (disposition p sig); reflexivity.
Qed.

Lemma emit_trace (evs : list event) :
  forall p, trace (emit p evs) = trace p ++ evs.
Proof.
  induction evs as [|ev evs IH]; intros p; cbn [emit fold_left].
  - now rewrite app_nil_r.
  - change (fold_left perform evs (perform p ev))
      with (emit (perform p ev) evs).
    rewrite IH, perform_trace, <- app_assoc. reflexivity.
Qed.

(** The calls of [on_sigint], in order. *)
Lemma on_sigint_order (e : env_t) (sig : signal) :
  on_sigint e sig
  = [Sigaction SIGINT 0 SIG_DFL]
    ++ (if negb (truthy (quiet e)) && negb (truthy (line_by_line e))
        then [CursesRelease] else [])
    ++ [if truthy (line_by_line e)
        then StdoutUpdate (line_by_line e) 1 else StdoutUpdate 10 0]
    ++ [DeleteLogtop] ++ [Fflush] ++ [Kill sig].
Proof.
  unfold on_sigint, at_exit, at_exit_curses, at_exit_report, at_exit_delete,
    at_exit_flush, setup_sighandler.
  destruct (truthy (quiet e)), (truthy (line_by_line e)); reflexivity.
Qed.

Lemma interrupt_handled (inp : input) (p : process) (now : Z) :
  state p = Running ->
  disp_int p = H_on_sigint ->
  trace (step inp p (now, Interrupt)) = trace p ++ on_sigint (gl_env p) SIGINT
  /\ state (step inp p (now, Interrupt)) = Killed SIGINT
  /\ disp_int (step inp p (now, Interrupt)) = SIG_DFL.
Proof.
  intros Hrun Hdisp. unfold step. cbn [fst snd]. rewrite Hrun.
  unfold deliver. cbn [disposition]. rewrite Hdisp.
  split; [apply emit_trace|].
  rewrite on_sigint_order. destruct p as [e l di da arm sin tr st].
  cbn [gl_env].
  destruct (truthy (quiet e)), (truthy (line_by_line e));
    split; reflexivity.
Qed.

End Shutdown.

(** ** Runs that no interrupt disturbs *)

Section NormalRun.

Lemma parse_opts_continue (opts : list getopt_result) :
  forall e evs e',
    parse_opts e opts = (evs, Continue e') -> evs = [].
Proof.
  induction opts as [|o opts IH]; intros e evs e'; cbn [parse_opts].
  - intros H. now inversion H.
  - destruct (Ascii.eqb (opt o) "l"); [apply IH|].
    destruct (Ascii.eqb (opt o) "q"); [apply IH|].
    destruct (Ascii.eqb (opt o) "s"); [apply IH|].
    destruct (Ascii.eqb (opt o) "i"); [apply IH|].
    destruct (Ascii.eqb (opt o) "v"); [discriminate|].
    destruct (Ascii.eqb (opt o) "h"); discriminate.
Qed.

Lemma parse_args_continue (dflt : Z) (e0 : env_t)
    (opts : list getopt_result) (tty : bool) (evs : list event)
    (e : env_t) :
  parse_args dflt e0 opts tty = (evs, Continue e) -> evs = [].
Proof.
  unfold parse_args.
  destruct (parse_opts _ opts) as [evs' [e' | code']] eqn:E.
  - destruct tty; intros H; inversion H; subst.
    exact (parse_opts_continue _ _ _ _ E).
  - discriminate.
Qed.

Variable inp : input.
Variable evs0 : list event.
Variable e0 : env_t.
Hypothesis parse_ok :
  parse_args (DEFAULT_HISTORY_SIZE inp) env0 (getopt_results inp)
    (stdin_isatty inp) = (evs0, Continue e0).

Lemma normal_step (p : process) (ta : Z * action) :
  is_interrupt ta = false ->
  state p = Running ->
  undisturbed p ->
  undisturbed (step inp p ta)
  /\ (if is_step ta
      then (remaining (step inp p ta) < remaining p)%nat
      else remaining (step inp p ta) = remaining p).
Proof.
  unfold undisturbed.
  destruct p as [e l di da arm sin tr st], ta as [now a].
  cbn [pc state alarm_armed disp_alrm gl_env].
  intros Hint -> (Henv & _ & Harm).
  destruct a; [| discriminate Hint |].
  - unfold step, is_step. cbn [fst snd state].
    destruct l; unfold main_step; cbn [pc gl_env stdin];
      [ rewrite (Henv eq_refl), parse_ok,
          (parse_args_continue _ _ _ _ _ _ parse_ok) | ..];
      unfold main_curses_setup, at_exit_curses, at_exit_report;
      try destruct (truthy (quiet e)); try destruct (truthy (line_by_line e));
      try (destruct (getline sin) as [[line rest]|] eqn:Hget;
           [apply getline_shorter in Hget|]);
      cbn in *; split_all;
      try discriminate; try (left; reflexivity); try (right; reflexivity);
      try lia; try (intuition congruence).
  - unfold step, is_step. cbn [fst snd state alarm_armed].
    destruct arm; [|cbn; split_all; auto].
    destruct Harm as [[-> Hl] | [Harm _]]; [|discriminate Harm].
    assert (Hne : l = L_parse_args -> False)
      by (intros ->; discriminate Hl).
    unfold deliver. cbn [disposition disarm disp_alrm gl_env].
    destruct (update_display_cases e now) as [H | (_ & _ & H)]; rewrite H;
      [|destruct (truthy (line_by_line e))]; cbn; split_all; auto;
      intros Hl'; destruct (Hne Hl').
Qed.

Lemma normal_run (sch : schedule) :
  forall p,
    existsb is_interrupt sch = false ->
    undisturbed p ->
    undisturbed (exec inp p sch)
    /\ ((remaining p <= length (filter is_step sch))%nat ->
        state (exec inp p sch) = Exited EXIT_SUCCESS).
Proof.
  induction sch as [|ta sch IH]; intros p Hint Hp.
  - split; [exact Hp|]. cbn. intros Hrem.
    destruct Hp as (_ & [Hst | Hst] & _); [|exact Hst].
    unfold remaining in Hrem. rewrite Hst in Hrem.
    destruct (pc p); cbn in Hrem; lia.
  - cbn [existsb] in Hint. apply orb_false_iff in Hint.
    destruct Hint as [Hta Hint].
    destruct Hp as (Henv & [Hst | Hst] & Harm).
    + destruct (normal_step p ta Hta Hst (conj Henv (conj (or_introl Hst) Harm)))
        as [Hq Hrem].
      destruct (IH (step inp p ta) Hint Hq) as [IH1 IH2].
      cbn [exec fold_left]. split; [exact IH1|].
      intros Hlen. apply IH2. cbn [filter] in Hlen.
      destruct (is_step ta); cbn [length] in Hlen; lia.
    + rewrite exec_finished by (rewrite Hst; discriminate).
      split; [|intros _; exact Hst].
      split; [exact Henv | split; [now right | exact Harm]].
Qed.

End NormalRun.

Lemma start_undisturbed (inp : input) : undisturbed (start inp).
Proof.
  unfold undisturbed. cbn. split; [reflexivity|].
  split; [now left | right; split; reflexivity].
Qed.

(** C3: [on_sigint] (1) restores the default disposition of SIGINT, then
    [at_exit] (2) releases curses when the interactive renderer is in use,
    (3) prints the final report, whatever the time stamp of the last redraw,
    (4) deletes the logtop engine and (5) flushes the streams, and only then
    the signal is raised again, which ends the process by SIGINT. A run that
    no interrupt disturbs ends with exit status 0 once [main] has executed
    all its statements. *)
Theorem on_sigint_order_and_exit_status :
  (forall e sig,
     on_sigint e sig
     = [Sigaction SIGINT 0 SIG_DFL]
       ++ (if negb (truthy (quiet e)) && negb (truthy (line_by_line e))
           then [CursesRelease] else [])
       ++ [if truthy (line_by_line e)
           then StdoutUpdate (line_by_line e) 1 else StdoutUpdate 10 0]
       ++ [DeleteLogtop] ++ [Fflush] ++ [Kill sig])
  /\ (forall e t sig,
       on_sigint (set_last_update_time e t) sig = on_sigint e sig)
  /\ (forall inp p now,
       state p = Running ->
       disp_int p = H_on_sigint ->
       trace (step inp p (now, Interrupt))
       = trace p ++ on_sigint (gl_env p) SIGINT
       /\ state (step inp p (now, Interrupt)) = Killed SIGINT
       /\ disp_int (step inp p (now, Interrupt)) = SIG_DFL)
  /\ (forall inp evs e sch,
       parse_args (DEFAULT_HISTORY_SIZE inp) env0 (getopt_results inp)
         (stdin_isatty inp) = (evs, Continue e) ->
       existsb is_interrupt sch = false ->
       (state (execution inp sch) = Running
        \/ state (execution inp sch) = Exited EXIT_SUCCESS)
       /\ ((13 + length (stdin_bytes inp) <= length (filter is_step sch))%nat
           -> state (execution inp sch) = Exited EXIT_SUCCESS)).
Proof.
  split; [exact on_sigint_order|].
  split; [reflexivity|].
  split; [exact interrupt_handled|].
  intros inp evs e sch Hparse Hint.
  destruct (normal_run inp evs e Hparse sch (start inp) Hint
              (start_undisturbed inp)) as [(_ & Hst & _) Hend].
  split; [exact Hst | exact Hend].
Qed.

Lemma on_sigint_order_and_exit_status_witness :
  (trace (step input_plain (execution input_plain (steps 0 8))
            (1, Interrupt))
   = trace (execution input_plain (steps 0 8))
     ++ on_sigint (gl_env (execution input_plain (steps 0 8))) SIGINT
   /\ state (step input_plain (execution input_plain (steps 0 8))
               (1, Interrupt))
      = Killed SIGINT)
  /\ state (execution input_plain (steps 0 15)) = Exited EXIT_SUCCESS.
Proof.
  destruct on_sigint_order_and_exit_status as (_ & _ & H3 & H4).
  split.
  - assert (Hrun : state (execution input_plain (steps 0 8)) = Running)
      by (vm_compute; reflexivity).
    assert (Hdisp : disp_int (execution input_plain (steps 0 8))
                    = H_on_sigint)
      by (vm_compute; reflexivity).
    destruct (H3 input_plain (execution input_plain (steps 0 8)) 1
                Hrun Hdisp) as (Htr & Hst & _).
    split; [exact Htr | exact Hst].
  - apply (H4 input_plain [] (mk_env 10000 0 0 0 1 None) (steps 0 15)).
    + vm_compute. reflexivity.
    + vm_compute. reflexivity.
    + vm_compute. lia.
Defined.

(** C1 fails on the code: [at_exit] called from [main] runs with [on_sigint]
    still installed. With one line of input, [main] reaches end of input and
    its own [at_exit] releases curses, prints the final report and deletes
    the engine; an interrupt that arrives before [fflush] runs [at_exit] a
    second time: two releases of curses, two final reports, two deletions of
    the engine. *)
Theorem shutdown_twice_after_end_of_input :
  pc (execution input_plain (steps 0 12)) = L_exit_flush
  /\ disp_int (execution input_plain (steps 0 12)) = H_on_sigint
  /\ trace (execution input_plain (steps 0 12 ++ [(0, Interrupt)]))
     = [Sigaction SIGINT 0 H_on_sigint;
        Sigaction SIGALRM SA_RESTART H_update_display;
        Alarm 1; NewLogtop 10000; CursesSetup; LogtopFeed (bytes "a");
        CursesRelease; StdoutUpdate 10 0; DeleteLogtop;
        Sigaction SIGINT 0 SIG_DFL;
        CursesRelease; StdoutUpdate 10 0; DeleteLogtop; Fflush;
        Kill SIGINT]
  /\ count_events is_final_report
       (trace (execution input_plain (steps 0 12 ++ [(0, Interrupt)])))
     = 2%nat
  /\ count_events is_delete
       (trace (execution input_plain (steps 0 12 ++ [(0, Interrupt)])))
     = 2%nat
  /\ count_events is_release
       (trace (execution input_plain (steps 0 12 ++ [(0, Interrupt)])))
     = 2%nat.
Proof. repeat split; vm_compute; reflexivity. Qed.

(** ** The curses lifecycle *)

Section Lifecycle.

Variable inp : input.
Variable evs0 : list event.
Variable e0 : env_t.
Hypothesis parse_ok :
  parse_args (DEFAULT_HISTORY_SIZE inp) env0 (getopt_results inp)
    (stdin_isatty inp) = (evs0, Continue e0).

Lemma lifecycle_step (p : process) (ta : Z * action) :
  is_interrupt ta = false ->
  state p = Running ->
  undisturbed p ->
  lifecycle e0 p ->
  lifecycle e0 (step inp p ta).
Proof.
  unfold undisturbed, lifecycle.
  destruct p as [e l di da arm sin tr st], ta as [now a].
  cbn [pc state alarm_armed disp_alrm disp_int gl_env trace].
  intros Hint -> (Henv & _ & Harm) (Hcfg & Hsetup & Hrel & Hdi & _).
  destruct a; [| discriminate Hint |].
  - unfold step. cbn [fst snd state].
    destruct l; unfold main_step; cbn [pc gl_env stdin];
      [ rewrite (Henv eq_refl), parse_ok,
          (parse_args_continue _ _ _ _ _ _ parse_ok) | ..];
      try (destruct Hcfg as [Hq Hl]; [discriminate|]);
      unfold main_curses_setup, at_exit_curses, at_exit_report in *;
      try rewrite Hq; try rewrite Hl;
      try destruct (truthy (quiet e0));
      try destruct (truthy (line_by_line e0));
      try (destruct (getline sin) as [[line rest]|] eqn:Hget);
      unfold count_events in *; cbn in *;
      rewrite ?filter_app, ?length_app; cbn; split_all;
      try discriminate; try reflexivity; try lia; try (intuition congruence).
  - unfold step. cbn [fst snd state alarm_armed].
    destruct arm; [|cbn; split_all; auto; discriminate].
    destruct Harm as [[-> Hb] | [Harm _]]; [|discriminate Harm].
    assert (Hne : l <> L_parse_args) by (intros ->; discriminate Hb).
    destruct (Hcfg Hne) as [Hq Hl].
    unfold deliver. cbn [disposition disarm disp_alrm gl_env].
    destruct (update_display_cases e now) as [H | (_ & _ & H)]; rewrite H;
      [|destruct (truthy (line_by_line e))];
      unfold count_events in *; cbn;
      rewrite ?filter_app, ?length_app; cbn; split_all; auto;
      try discriminate; try lia.
Qed.

Lemma lifecycle_run (sch : schedule) :
  forall p,
    existsb is_interrupt sch = false ->
    undisturbed p ->
    lifecycle e0 p ->
    lifecycle e0 (exec inp p sch).
Proof.
  induction sch as [|ta sch IH]; intros p Hint Hu Hp; [exact Hp|].
  cbn [existsb] in Hint. apply orb_false_iff in Hint.
  destruct Hint as [Hta Hint].
  destruct (state p) eqn:Hst.
  - cbn [exec fold_left]. apply IH; [exact Hint | |].
    + exact (proj1 (normal_step inp evs0 e0 parse_ok p ta Hta Hst Hu)).
    + now apply lifecycle_step.
  - rewrite exec_finished by (rewrite Hst; discriminate). exact Hp.
  - rewrite exec_finished by (rewrite Hst; discriminate). exact Hp.
Qed.

Lemma start_lifecycle : lifecycle e0 (start inp).
Proof.
  unfold lifecycle. cbn. split_all; try reflexivity; try discriminate.
  intros H. now destruct H.
Qed.

End Lifecycle.

Lemma on_sigint_counts (e : env_t) (sig : signal) :
  count_events is_setup (on_sigint e sig) = O
  /\ count_events is_release (on_sigint e sig)
     = length (main_curses_setup e).
Proof.
  rewrite on_sigint_order. unfold main_curses_setup.
  destruct (truthy (quiet e)), (truthy (line_by_line e));
    split; reflexivity.
Qed.

(** The guards agree: [main] calls [curses_setup] exactly when quiet mode
    and line-by-line mode are both off, and [at_exit] calls [curses_release]
    under the same condition. So in a run that ends at end of input without
    any interrupt, and in a run that an interrupt ends while [run] is
    reading, [curses_release] is called as often as [curses_setup]. Runs
    where the interrupt arrives earlier or later are not covered: see
    [curses_release_without_setup]. *)
Lemma curses_release_in_step_with_setup :
  (forall e,
     In CursesSetup (main_curses_setup e)
     <-> (truthy (quiet e) = false /\ truthy (line_by_line e) = false))
  /\ (forall e,
     In CursesRelease (at_exit e)
     <-> (truthy (quiet e) = false /\ truthy (line_by_line e) = false))
  /\ (forall inp evs e sch,
     parse_args (DEFAULT_HISTORY_SIZE inp) env0 (getopt_results inp)
       (stdin_isatty inp) = (evs, Continue e) ->
     existsb is_interrupt sch = false ->
     (state (execution inp sch) = Exited EXIT_SUCCESS ->
      count_events is_setup (trace (execution inp sch))
      = length (main_curses_setup e)
      /\ count_events is_release (trace (execution inp sch))
         = length (main_curses_setup e))
     /\ (forall now,
         state (execution inp sch) = Running ->
         pc (execution inp sch) = L_run ->
         count_events is_setup
           (trace (step inp (execution inp sch) (now, Interrupt)))
         = length (main_curses_setup e)
         /\ count_events is_release
              (trace (step inp (execution inp sch) (now, Interrupt)))
            = length (main_curses_setup e))).
Proof.
  split; [|split].
  - intros e. unfold main_curses_setup.
    destruct (truthy (quiet e)), (truthy (line_by_line e)); cbn;
      intuition discriminate.
  - intros e. unfold at_exit, at_exit_curses, at_exit_report, at_exit_delete,
      at_exit_flush.
    destruct (truthy (quiet e)), (truthy (line_by_line e)); cbn;
      intuition discriminate.
  - intros inp evs e sch Hparse Hint.
    pose proof (lifecycle_run inp evs e Hparse sch (start inp) Hint
                  (start_undisturbed inp) (start_lifecycle inp e))
      as (Hcfg & Hsetup & Hrel & Hdi & Hret).
    fold (execution inp sch) in Hcfg, Hsetup, Hrel, Hdi, Hret.
    assert (Hlen : length (at_exit_curses e) = length (main_curses_setup e))
      by (unfold at_exit_curses, main_curses_setup;
          destruct (truthy (quiet e)), (truthy (line_by_line e));
          reflexivity).
    split.
    + intros Hend. rewrite Hsetup, Hrel, (Hret Hend), Hlen.
      split; reflexivity.
    + intros now Hrun Hpc.
      destruct (interrupt_handled inp (execution inp sch) now Hrun)
        as (Htr & _ & _); [apply Hdi; now rewrite Hpc|].
      rewrite Htr. unfold count_events in *.
      rewrite !filter_app, !length_app, Hsetup, Hrel, Hpc.
      destruct (on_sigint_counts (gl_env (execution inp sch)) SIGINT)
        as [Hs Hr].
      unfold count_events in Hs, Hr. rewrite Hs, Hr.
      destruct Hcfg as [Hq Hl]; [rewrite Hpc; discriminate|].
      unfold main_curses_setup. rewrite Hq, Hl. cbn [setup_done release_done].
      split; lia.
Qed.

Lemma curses_release_in_step_with_setup_example :
  (state (execution input_plain (steps 0 15)) = Exited EXIT_SUCCESS ->
   count_events is_setup (trace (execution input_plain (steps 0 15)))
   = length (main_curses_setup (mk_env 10000 0 0 0 1 None))
   /\ count_events is_release (trace (execution input_plain (steps 0 15)))
      = length (main_curses_setup (mk_env 10000 0 0 0 1 None)))
  /\ state (execution input_plain (steps 0 15)) = Exited EXIT_SUCCESS
  /\ length (main_curses_setup (mk_env 10000 0 0 0 1 None)) = 1%nat.
Proof.
  destruct curses_release_in_step_with_setup as (_ & _ & H3).
  destruct (H3 input_plain [] (mk_env 10000 0 0 0 1 None) (steps 0 15))
    as [Hend _].
  - vm_compute. reflexivity.
  - vm_compute. reflexivity.
  - split; [exact Hend|]. split; vm_compute; reflexivity.
Defined.

(** ** The time stamp of the last redraw *)

Section TimeStamp.

Lemma nondecreasing_cons (t : Z) (rest : list Z) :
  nondecreasing (t :: rest) = true ->
  nondecreasing rest = true /\ forall t', In t' rest -> t <= t'.
Proof.
  revert t. induction rest as [|u rest IH]; intros t H.
  - split; [reflexivity | intros t' []].
  - cbn [nondecreasing] in H. apply andb_prop in H. destruct H as [Htu H].
    apply Z.leb_le in Htu. split; [exact H|].
    intros t' [<- | Hin]; [exact Htu|].
    destruct (IH u H) as [_ Hu]. specialize (Hu t' Hin). lia.
Qed.

Lemma parse_opts_last_update_time (opts : list getopt_result) :
  forall e evs e',
    parse_opts e opts = (evs, Continue e') ->
    last_update_time e' = last_update_time e.
Proof.
  induction opts as [|o opts IH]; intros e evs e'; cbn [parse_opts].
  - intros H. now inversion H.
  - destruct (Ascii.eqb (opt o) "l"); [intros H; now rewrite (IH _ _ _ H)|].
    destruct (Ascii.eqb (opt o) "q"); [intros H; now rewrite (IH _ _ _ H)|].
    destruct (Ascii.eqb (opt o) "s"); [intros H; now rewrite (IH _ _ _ H)|].
    destruct (Ascii.eqb (opt o) "i"); [intros H; now rewrite (IH _ _ _ H)|].
    destruct (Ascii.eqb (opt o) "v"); [discriminate|].
    destruct (Ascii.eqb (opt o) "h"); discriminate.
Qed.

Lemma parse_args_last_update_time (dflt : Z) (e0 : env_t)
    (opts : list getopt_result) (tty : bool) (evs : list event)
    (e : env_t) :
  parse_args dflt e0 opts tty = (evs, Continue e) ->
  last_update_time e = 0.
Proof.
  unfold parse_args.
  destruct (parse_opts _ opts) as [evs' [e' | code']] eqn:E;
    [|discriminate].
  apply parse_opts_last_update_time in E. cbn in E.
  destruct tty; [discriminate|]. intros H. inversion H; subst.
  destruct (history_size e' =? 0); exact E.
Qed.

(** [update_display] by itself never moves the time stamp back when
    [interval] is not negative, whatever the clock does. *)
Lemma update_display_never_rewinds (e : env_t) (now : Z) :
  0 <= interval e ->
  last_update_time e <= last_update_time (fst (update_display e now)).
Proof.
  intros Hi.
  destruct (update_display_cases e now) as [H | (_ & Hdue & H)]; rewrite H;
    cbn; lia.
Qed.

End TimeStamp.

(** * Further properties of the code *)

(** ** Lines as the engine sees them *)

Section FedLines.

Lemma c_str_incl (k : list ascii) (c : ascii) : In c (c_str k) -> In c k.
Proof.
  induction k as [|x k IH]; simpl; [intros []|].
  destruct (Ascii.eqb x NUL); [intros []|].
  intros [<- | H]; [now left | right; now apply IH].
Qed.

Lemma c_str_has_no_NUL (k : list ascii) : ~ In NUL (c_str k).
Proof.
  induction k as [|x k IH]; simpl; [intros []|].
  destruct (Ascii.eqb x NUL) eqn:E; [intros []|].
  intros [-> | H]; [discriminate E | now apply IH].
Qed.

Lemma eols_have_no_NUL (eols : list ascii) :
  forallb is_eol eols = true -> ~ In NUL eols.
Proof.
  intros Hall Hin. rewrite forallb_forall in Hall.
  specialize (Hall NUL Hin). discriminate Hall.
Qed.

(** A byte that is not in the right part of a split lies in the left one. *)
Lemma split_keeps_byte (x : ascii) (l1 : list ascii) :
  forall l2 k e,
    l1 ++ x :: l2 = k ++ e -> ~ In x e -> exists b, k = l1 ++ x :: b.
Proof.
  induction l1 as [|z l1 IH]; intros l2 k e Heq Hx.
  - destruct k as [|y k]; cbn in Heq.
    + subst e. destruct Hx. now left.
    + inversion Heq; subst. now exists k.
  - destruct k as [|y k]; cbn in Heq.
    + subst e. destruct Hx. right. apply in_or_app. right. now left.
    + inversion Heq; subst. destruct (IH _ _ _ H1 Hx) as [b ->].
      now exists b.
Qed.

(** What [getline] returns: a line that ends with its only line feed, or
    the unterminated rest of the input. *)
Lemma getline_shape (s line rest : list ascii) :
  getline s = Some (line, rest) ->
  (exists body, line = body ++ [LF] /\ ~ In LF body)
  \/ (rest = [] /\ ~ In LF line).
Proof.
  revert line rest. induction s as [|c s IH]; simpl; intros line rest H.
  - discriminate.
  - destruct (Ascii.eqb c LF) eqn:Ec.
    + apply Ascii.eqb_eq in Ec. inversion H; subst.
      left. exists []. split; [reflexivity | intros []].
    + assert (Hc : c <> LF)
        by (intros ->; rewrite Ascii.eqb_refl in Ec; discriminate).
      destruct (getline s) as [[l r]|] eqn:E.
      * inversion H; subst.
        destruct (IH l rest eq_refl) as [(body & -> & Hb) | [-> Hl]].
        -- left. exists (c :: body). split; [reflexivity|].
           intros [Heq | Hin]; [now apply Hc | now apply Hb].
        -- right. split; [reflexivity|].
           intros [Heq | Hin]; [now apply Hc | now apply Hl].
      * inversion H; subst. right. split; [reflexivity|].
        intros [Heq | []]. now apply Hc.
Qed.

Lemma fed_line_no_LF (line : list ascii) :
  (exists body, line = body ++ [LF] /\ ~ In LF body) \/ ~ In LF line ->
  ~ In LF (fed_line line).
Proof.
  intros Hshape Hin. unfold fed_line in Hin.
  destruct (strip_loop_split line []) as (kept & eols & Hl & He & Hk & Hf).
  rewrite Hf in Hin. apply c_str_incl in Hin.
  destruct Hshape as [(body & Hbody & Hb) | Hno].
  - destruct eols as [|x eols _] using rev_ind.
    + rewrite app_nil_r in Hl. subst kept.
      rewrite Hbody in Hk. specialize (Hk body LF eq_refl). discriminate Hk.
    + rewrite Hl, app_assoc in Hbody. apply app_inj_tail in Hbody.
      destruct Hbody as [Hbody _]. apply Hb. rewrite <- Hbody.
      apply in_or_app. now left.
  - apply Hno. rewrite Hl. apply in_or_app. now left.
Qed.

Lemma getlines_shape (fuel : nat) :
  forall s line,
    In line (getlines fuel s) ->
    ((exists body, line = body ++ [LF] /\ ~ In LF body) \/ ~ In LF line)
    /\ (forall c, In c line -> In c s).
Proof.
  induction fuel as [|fuel IH]; intros s line; simpl; [intros []|].
  destruct (getline s) as [[l r]|] eqn:E; [|intros []].
  destruct (getline_split _ _ _ E) as [-> _].
  intros [<- | Hin].
  - split.
    + destruct (getline_shape _ _ _ E) as [H | [_ H]]; [now left | now right].
    + intros c Hc. apply in_or_app. now left.
  - destruct (IH r line Hin) as [H1 H2]. split; [exact H1|].
    intros c Hc. apply in_or_app. right. now apply H2.
Qed.

End FedLines.

(** X1: whatever the input, no line handed to [logtop_feed] contains a line
    feed or a NUL byte; when the input has no NUL byte, no such line ends
    with a carriage return either. *)
Theorem fed_lines_are_normalised (stdin : list ascii) :
  Forall (fun ev => exists l, ev = LogtopFeed l /\ ~ In LF l /\ ~ In NUL l)
    (run stdin)
  /\ (~ In NUL stdin ->
      Forall (fun ev =>
                exists l, ev = LogtopFeed l
                          /\ forall k c, l = k ++ [c] -> is_eol c = false)
        (run stdin)).
Proof.
  unfold run. rewrite run_loop_feeds. split.
  - apply Forall_forall. intros ev Hev. apply in_map_iff in Hev.
    destruct Hev as (line & <- & Hline).
    exists (fed_line line). split; [reflexivity|]. split.
    + apply fed_line_no_LF. exact (proj1 (getlines_shape _ _ _ Hline)).
    + apply c_str_has_no_NUL.
  - intros Hnul. apply Forall_forall. intros ev Hev. apply in_map_iff in Hev.
    destruct Hev as (line & <- & Hline).
    exists (fed_line line). split; [reflexivity|].
    destruct (strip_loop_split line []) as (kept & eols & Hl & He & Hk & Hf).
    unfold fed_line. rewrite Hf, c_str_no_NUL; [exact Hk|].
    apply forallb_forall. intros c Hc.
    destruct (Ascii.eqb c NUL) eqn:E; [|reflexivity].
    apply Ascii.eqb_eq in E. subst c. destruct Hnul.
    apply (proj2 (getlines_shape _ _ _ Hline)).
    rewrite Hl. apply in_or_app. now left.
Qed.

Lemma fed_lines_are_normalised_witness :
  ~ In NUL (bytes "a" ++ [CR; CR; LF] ++ bytes "b" ++ [CR])
  /\ Forall (fun ev =>
              exists l, ev = LogtopFeed l
                        /\ forall k c, l = k ++ [c] -> is_eol c = false)
       (run (bytes "a" ++ [CR; CR; LF] ++ bytes "b" ++ [CR])).
Proof.
  assert (Hnul : ~ In NUL (bytes "a" ++ [CR; CR; LF] ++ bytes "b" ++ [CR])).
  { cbn. intros H.
    repeat (destruct H as [H | H]; [discriminate H|]). exact H. }
  split; [exact Hnul|].
  exact (proj2 (fed_lines_are_normalised
                  (bytes "a" ++ [CR; CR; LF] ++ bytes "b" ++ [CR])) Hnul).
Defined.

(** X2: a line is fed up to its first NUL byte, and the stripping of line
    ends, which works on the length [getline] returned, does not reach that
    part: carriage returns just before the NUL byte are fed. *)
Theorem fed_line_stops_at_NUL (a b : list ascii) :
  ~ In NUL a -> fed_line (a ++ NUL :: b) = a.
Proof.
  intros Ha. unfold fed_line.
  destruct (strip_loop_split (a ++ NUL :: b) [])
    as (kept & eols & Hl & He & Hk & Hf).
  rewrite Hf.
  destruct (split_keeps_byte NUL a b kept eols Hl (eols_have_no_NUL _ He))
    as [b' ->].
  rewrite c_str_app_NUL. apply c_str_no_NUL.
  apply forallb_forall. intros c Hc.
  destruct (Ascii.eqb c NUL) eqn:E; [|reflexivity].
  apply Ascii.eqb_eq in E. subst c. now destruct Ha.
Qed.

Lemma fed_line_stops_at_NUL_witness :
  ~ In NUL (bytes "abc" ++ [CR])
  /\ fed_line ((bytes "abc" ++ [CR]) ++ NUL :: bytes "tail" ++ [CR; LF])
     = bytes "abc" ++ [CR].
Proof.
  assert (Hnul : ~ In NUL (bytes "abc" ++ [CR])).
  { cbn. intros H.
    repeat (destruct H as [H | H]; [discriminate H|]). exact H. }
  split; [exact Hnul|].
  exact (fed_line_stops_at_NUL (bytes "abc" ++ [CR])
           (bytes "tail" ++ [CR; LF]) Hnul).
Defined.

Section FeedCount.

Lemma last_app_nonempty {A} (l r : list A) (d : A) :
  r <> [] -> last (l ++ r) d = last r d.
Proof.
  intros Hr. induction l as [|x l IH]; [reflexivity|].
  cbn [app last]. destruct (l ++ r) eqn:E; [|exact IH].
  apply app_eq_nil in E. destruct E as [_ E]. contradiction.
Qed.

Lemma last_in {A} (l : list A) (d : A) : l <> [] -> In (last l d) l.
Proof.
  intros Hl. rewrite (app_removelast_last d Hl) at 2.
  apply in_or_app. right. now left.
Qed.

Lemma getlines_count (fuel : nat) :
  forall s, (length s <= fuel)%nat ->
    length (getlines fuel s)
    = (count_occ ascii_dec s LF
       + (if Ascii.eqb (last s LF) LF then 0 else 1))%nat.
Proof.
  induction fuel as [|fuel IH]; intros s Hlen.
  - destruct s; [reflexivity | simpl in Hlen; lia].
  - cbn [getlines]. destruct (getline s) as [[line rest]|] eqn:E.
    + pose proof (getline_shorter _ _ _ E) as Hlt.
      destruct (getline_split _ _ _ E) as [Hs Hne].
      cbn [length]. rewrite (IH rest) by lia. subst s.
      rewrite count_occ_app.
      destruct (getline_shape _ _ _ E) as [(body & -> & Hb) | [-> Hl]].
      * rewrite count_occ_app.
        apply (count_occ_not_In ascii_dec) in Hb. rewrite Hb. cbn [count_occ].
        destruct (ascii_dec LF LF) as [_ | Hn]; [|now destruct Hn].
        destruct rest as [|r rest].
        -- rewrite app_nil_r, last_last. cbn. reflexivity.
        -- rewrite last_app_nonempty by discriminate. cbn [Nat.add]. lia.
      * rewrite app_nil_r.
        assert (Hlast : last line LF <> LF).
        { intros Heq. apply Hl. rewrite <- Heq. now apply last_in. }
        apply (count_occ_not_In ascii_dec) in Hl. rewrite Hl. cbn.
        destruct (Ascii.eqb (last line LF) LF) eqn:Eq; [|reflexivity].
        apply Ascii.eqb_eq in Eq. contradiction.
    + destruct s; [reflexivity | simpl in E].
      destruct (Ascii.eqb a LF); [discriminate|].
      destruct (getline s) as [[? ?]|]; discriminate.
Qed.

End FeedCount.

(** X3: [run] calls [logtop_feed] once per line feed of the input, and once
    more when the input does not end with a line feed: an unterminated last
    line is fed too, and an empty input feeds nothing. *)
Theorem run_feed_count (stdin : list ascii) :
  length (run stdin)
  = (count_occ ascii_dec stdin LF
     + (if Ascii.eqb (last stdin LF) LF then 0 else 1))%nat.
Proof.
  unfold run. rewrite run_loop_feeds, length_map.
  apply getlines_count. lia.
Qed.

(** ** The rate of redraws *)

Section RedrawRate.

Variable len : Z.
Hypothesis len_pos : 0 < len.

Lemma spaced_lower_bound (l : list Z) :
  forall a,
    Sorted (fun x y => x + len <= y) l ->
    HdRel (fun x y => x + len <= y) a l ->
    forall t, In t l -> a + len <= t.
Proof.
  induction l as [|b l IH]; intros a Hs Hh t Ht; [destruct Ht|].
  apply Sorted_inv in Hs. destruct Hs as [Hs Hb].
  apply HdRel_inv in Hh. destruct Ht as [<- | Ht]; [exact Hh|].
  specialize (IH b Hs Hb t Ht). lia.
Qed.

Lemma windows_hold_at_most (l : list Z) :
  Sorted (fun x y => x + len <= y) l ->
  forall k w,
    (length (filter (in_window w (Z.of_nat k * len)) l) <= k)%nat.
Proof.
  induction l as [|a l IH]; intros Hs k w; [simpl; lia|].
  apply Sorted_inv in Hs. destruct Hs as [Hs Ha]. cbn [filter].
  destruct (in_window w (Z.of_nat k * len) a) eqn:Hin; [|now apply IH].
  unfold in_window in Hin. apply andb_prop in Hin. destruct Hin as [Hlo Hhi].
  apply Z.leb_le in Hlo. apply Z.ltb_lt in Hhi.
  destruct k as [|k]; [cbn in Hhi; lia|].
  cbn [length]. apply le_n_S.
  rewrite (filter_ext_in (in_window w (Z.of_nat (S k) * len))
             (in_window (w + len) (Z.of_nat k * len))); [now apply IH|].
  intros t Ht. pose proof (spaced_lower_bound l a Hs Ha t Ht) as Hlow.
  unfold in_window.
  replace (w <=? t) with true by (symmetry; apply Z.leb_le; lia).
  replace (w + len <=? t) with true by (symmetry; apply Z.leb_le; lia).
  f_equal. f_equal. lia.
Qed.

End RedrawRate.

(** X4: with a positive interval, over any sequence of ticks and for every
    [k], at most [k] redraws fall in any window of [k] times [interval]
    seconds: [update_display] redraws at most once per interval on average
    too, whatever the rate of the ticks. *)
Theorem redraw_rate_bound (e : env_t) (clock : list Z) (w : Z) (k : nat) :
  0 < interval e ->
  (length (filter (in_window w (Z.of_nat k * interval e))
             (redraw_times e clock)) <= k)%nat.
Proof.
  intros Hpos. apply windows_hold_at_most; [exact Hpos|].
  apply (redraw_times_spaced clock e).
Qed.

Lemma redraw_rate_bound_witness :
  0 < interval env_interactive
  /\ (length (filter (in_window 13 (Z.of_nat 2 * interval env_interactive))
                (redraw_times env_interactive
                   [13; 13; 14; 15; 16; 16; 17; 18; 19]%Z)) <= 2)%nat.
Proof.
  assert (Hpos : 0 < interval env_interactive) by reflexivity.
  split; [exact Hpos|].
  exact (redraw_rate_bound env_interactive
           [13; 13; 14; 15; 16; 16; 17; 18; 19]%Z 13 2 Hpos).
Defined.

(** ** What [parse_args] returns *)

Section Options.

Lemma parse_opts_settings (opts : list getopt_result) :
  forall e evs e',
    parse_opts e opts = (evs, Continue e') ->
    interval e' = last_value "i" opts (interval e)
    /\ line_by_line e' = last_value "l" opts (line_by_line e)
    /\ history_size e' = last_value "s" opts (history_size e)
    /\ quiet e' = (if has_option "q" opts then 1 else quiet e)
    /\ logtop e' = logtop e
    /\ forallb stores_value opts = true.
Proof.
  unfold last_value, has_option.
  induction opts as [|o opts IH]; intros e evs e'; cbn [parse_opts].
  - intros H. inversion H; subst. repeat split.
  - cbn [fold_left existsb forallb]. unfold stores_value at 1.
    destruct (Ascii.eqb (opt o) "l") eqn:El.
    { apply Ascii.eqb_eq in El. rewrite ?El. cbn [Ascii.eqb Bool.eqb andb orb].
      intros H. exact (IH _ _ _ H). }
    destruct (Ascii.eqb (opt o) "q") eqn:Eq.
    { apply Ascii.eqb_eq in Eq. rewrite ?Eq. cbn [Ascii.eqb Bool.eqb andb orb].
      intros H. destruct (IH _ _ _ H) as (H1 & H2 & H3 & H4 & H5 & H6).
      cbn [interval line_by_line history_size quiet logtop] in *.
      repeat split; try assumption.
      rewrite H4. now destruct (existsb _ opts). }
    destruct (Ascii.eqb (opt o) "s") eqn:Es.
    { apply Ascii.eqb_eq in Es. rewrite ?Es. cbn [Ascii.eqb Bool.eqb andb orb].
      intros H. exact (IH _ _ _ H). }
    destruct (Ascii.eqb (opt o) "i") eqn:Ei.
    { apply Ascii.eqb_eq in Ei. rewrite ?Ei. cbn [Ascii.eqb Bool.eqb andb orb].
      intros H. exact (IH _ _ _ H). }
    destruct (Ascii.eqb (opt o) "v"); [discriminate|].
    destruct (Ascii.eqb (opt o) "h"); discriminate.
Qed.

Lemma parse_opts_success (opts : list getopt_result) :
  forall e evs,
    parse_opts e opts = (evs, Exit EXIT_SUCCESS) ->
    has_option "h" opts = true \/ has_option "v" opts = true.
Proof.
  unfold has_option.
  induction opts as [|o opts IH]; intros e evs; cbn [parse_opts existsb].
  - discriminate.
  - destruct (Ascii.eqb (opt o) "l");
      [intros H; destruct (IH _ _ H) as [-> | ->];
       rewrite ?orb_true_r; auto|].
    destruct (Ascii.eqb (opt o) "q");
      [intros H; destruct (IH _ _ H) as [-> | ->];
       rewrite ?orb_true_r; auto|].
    destruct (Ascii.eqb (opt o) "s");
      [intros H; destruct (IH _ _ H) as [-> | ->];
       rewrite ?orb_true_r; auto|].
    destruct (Ascii.eqb (opt o) "i");
      [intros H; destruct (IH _ _ H) as [-> | ->];
       rewrite ?orb_true_r; auto|].
    destruct (Ascii.eqb (opt o) "v"); [intros _; now right|].
    destruct (Ascii.eqb (opt o) "h"); [intros _; now left|].
    discriminate.
Qed.

Lemma parse_args_logtop (dflt : Z) (e0 : env_t)
    (opts : list getopt_result) (tty : bool) (evs : list event)
    (e : env_t) :
  parse_args dflt e0 opts tty = (evs, Continue e) -> logtop e = logtop e0.
Proof.
  unfold parse_args.
  destruct (parse_opts _ opts) as [evs' [e' | code']] eqn:E;
    [|discriminate].
  destruct (parse_opts_settings _ _ _ _ E) as (_ & _ & _ & _ & Hg & _).
  cbn [logtop] in Hg. destruct tty; [discriminate|].
  intros H. inversion H; subst.
  destruct (history_size e' =? 0); exact Hg.
Qed.

End Options.

(** X5: when [parse_args] returns, the input is not a terminal, every option
    was one that stores a value, and each setting is that of the last
    occurrence of its option, whatever the order of the options: the
    interval is 1 without [-i], line-by-line is 0 without [-l], quiet is 1
    exactly when [-q] was given, and a history size of 0 (no [-s], or a
    value [atoi] reads as 0) is replaced by [DEFAULT_HISTORY_SIZE]. The time
    stamp is 0 and the engine handle is untouched. *)
Theorem parse_args_settings (dflt : Z) (e0 : env_t)
    (opts : list getopt_result) (tty : bool) (evs : list event)
    (e : env_t) :
  parse_args dflt e0 opts tty = (evs, Continue e) ->
  evs = []
  /\ tty = false
  /\ forallb stores_value opts = true
  /\ interval e = last_value "i" opts 1
  /\ line_by_line e = last_value "l" opts 0
  /\ history_size e
     = (if last_value "s" opts 0 =? 0 then dflt else last_value "s" opts 0)
  /\ quiet e = (if has_option "q" opts then 1 else 0)
  /\ last_update_time e = 0
  /\ logtop e = logtop e0.
Proof.
  intros Hparse.
  pose proof (parse_args_continue _ _ _ _ _ _ Hparse) as Hevs.
  pose proof (parse_args_last_update_time _ _ _ _ _ _ Hparse) as Hlast.
  unfold parse_args in Hparse.
  destruct (parse_opts _ opts) as [evs' [e' | code']] eqn:E;
    [|discriminate].
  destruct (parse_opts_settings _ _ _ _ E) as (Hi & Hl & Hs & Hq & Hg & Hv).
  cbn [interval line_by_line history_size quiet logtop] in Hi, Hl, Hs, Hq, Hg.
  destruct tty; [discriminate|]. inversion Hparse; subst evs'.
  split; [exact Hevs|]. split; [reflexivity|]. split; [exact Hv|].
  rewrite <- Hs.
  destruct (history_size e' =? 0) eqn:E0; subst e;
    cbn [interval line_by_line history_size quiet logtop last_update_time];
    rewrite ?E0; repeat split; try assumption;
    exact (parse_opts_last_update_time _ _ _ _ E).
Qed.

Lemma parse_args_settings_witness :
  interval (mk_env 10000 1 0 5 7 None) = 7
  /\ line_by_line (mk_env 10000 1 0 5 7 None) = 5
  /\ history_size (mk_env 10000 1 0 5 7 None) = 10000
  /\ quiet (mk_env 10000 1 0 5 7 None) = 1.
Proof.
  destruct (parse_args_settings 10000 env0
              [mk_opt "i" (bytes "3"); mk_opt "l" (bytes "5");
               mk_opt "s" (bytes "zero"); mk_opt "q" [];
               mk_opt "i" (bytes "7")]
              false [] (mk_env 10000 1 0 5 7 None) eq_refl)
    as (_ & _ & _ & Hi & Hl & Hs & Hq & _).
  split; [exact Hi|]. split; [exact Hl|]. split; [exact Hs | exact Hq].
Defined.

(** X6: [-h] and [-v] are acted on as soon as the loop of [parse_args]
    meets them: after options that only store a value, [-h] prints the
    usage text and [-v] the version, and the program exits with status 0,
    whatever follows on the command line and even when the input is a
    terminal. They are the only way [parse_args] exits with status 0. *)
Theorem help_and_version_exit_first (dflt : Z) (e0 : env_t)
    (pre : list getopt_result) :
  forallb stores_value pre = true ->
  (forall o post tty,
     opt o = "h"%char ->
     parse_args dflt e0 (pre ++ o :: post) tty
     = ([UsageText EXIT_SUCCESS], Exit EXIT_SUCCESS))
  /\ (forall o post tty,
     opt o = "v"%char ->
     parse_args dflt e0 (pre ++ o :: post) tty
     = ([VersionText], Exit EXIT_SUCCESS))
  /\ (forall opts tty evs,
     parse_args dflt e0 opts tty = (evs, Exit EXIT_SUCCESS) ->
     has_option "h" opts = true \/ has_option "v" opts = true).
Proof.
  intros Hpre.
  destruct (parse_opts_values pre Hpre (mk_env 0 0 0 0 1 (logtop e0)))
    as (e' & _ & Hrest).
  split; [|split].
  - intros o post tty Ho. unfold parse_args. rewrite Hrest.
    cbn [parse_opts]. rewrite Ho. reflexivity.
  - intros o post tty Ho. unfold parse_args. rewrite Hrest.
    cbn [parse_opts]. rewrite Ho. reflexivity.
  - intros opts tty evs. unfold parse_args.
    destruct (parse_opts _ opts) as [evs' [e'' | code']] eqn:E.
    + destruct tty; discriminate.
    + intros H. inversion H; subst. exact (parse_opts_success _ _ _ E).
Qed.

Lemma help_and_version_exit_first_witness :
  forallb stores_value [mk_opt "s" (bytes "50"); mk_opt "q" []] = true
  /\ parse_args 10000 env0
       ([mk_opt "s" (bytes "50"); mk_opt "q" []]
          ++ mk_opt "h" [] :: [mk_opt "?" []]) true
     = ([UsageText EXIT_SUCCESS], Exit EXIT_SUCCESS).
Proof.
  split; [reflexivity|].
  exact (proj1 (help_and_version_exit_first 10000 env0
                  [mk_opt "s" (bytes "50"); mk_opt "q" []] eq_refl)
           (mk_opt "h" []) [mk_opt "?" []] true eq_refl).
Defined.

(** ** [main] without signals *)

Section Sequential.

Lemma run_loop_fuel (n : nat) :
  forall m s, (length s <= n)%nat -> (length s <= m)%nat ->
    fst (run_loop n s) = fst (run_loop m s).
Proof.
  induction n as [|n IH]; intros m s Hn Hm.
  - destruct s; [|simpl in Hn; lia]. destruct m; reflexivity.
  - destruct m as [|m].
    + destruct s; [reflexivity | simpl in Hm; lia].
    + cbn [run_loop]. destruct (getline s) as [[line rest]|] eqn:E;
        [|reflexivity].
      pose proof (getline_shorter _ _ _ E) as Hlt.
      specialize (IH m rest ltac:(lia) ltac:(lia)).
      destruct (run_loop n rest), (run_loop m rest). cbn in *.
      now rewrite IH.
Qed.

Lemma run_unfold (s : list ascii) :
  run s
  = match getline s with
    | Some (line, rest) => LogtopFeed (fed_line line) :: run rest
    | None => []
    end.
Proof.
  unfold run. destruct s as [|c s]; [reflexivity|].
  cbn [length run_loop].
  destruct (getline (c :: s)) as [[line rest]|] eqn:E; [|reflexivity].
  pose proof (getline_shorter _ _ _ E) as Hlt. cbn [length] in Hlt.
  rewrite <- (run_loop_fuel (length s) (length rest) rest) by lia.
  now destruct (run_loop (length s) rest).
Qed.

Variable inp : input.
Variable evs0 : list event.
Variable e0 : env_t.
Hypothesis parse_ok :
  parse_args (DEFAULT_HISTORY_SIZE inp) env0 (getopt_results inp)
    (stdin_isatty inp) = (evs0, Continue e0).

(** As long as only [main] acts, what it has called and what it has still
    to call make up [main_calls]. *)
Lemma sequential_step (p : process) (now : Z) :
  state p = Running ->
  (pc p = L_parse_args -> gl_env p = env0) ->
  (pc p <> L_parse_args ->
   quiet (gl_env p) = quiet e0
   /\ line_by_line (gl_env p) = line_by_line e0
   /\ history_size (gl_env p) = history_size e0) ->
  trace (step inp p (now, Step)) ++ pending e0 (step inp p (now, Step))
  = trace p ++ pending e0 p
  /\ (quiet (gl_env (step inp p (now, Step))) = quiet e0
      /\ line_by_line (gl_env (step inp p (now, Step))) = line_by_line e0
      /\ history_size (gl_env (step inp p (now, Step))) = history_size e0)
  /\ pc (step inp p (now, Step)) <> L_parse_args.
Proof.
  destruct p as [e l di da arm sin tr st].
  cbn [pc state gl_env stdin trace]. intros -> Hstart Hcfg.
  unfold step. cbn [fst snd state]. unfold main_step. cbn [pc gl_env stdin].
  destruct l;
    [ rewrite (Hstart eq_refl), parse_ok,
        (parse_args_continue _ _ _ _ _ _ parse_ok)
    | destruct Hcfg as (Hq & Hl & Hs); [discriminate|] ..];
    unfold pending;
    cbn [state pc stdin gl_env goto with_env with_stdin with_state emit
         fold_left perform];
    try match goal with
        | |- context [getline sin] =>
            rewrite (run_unfold sin);
            destruct (getline sin) as [[line rest]|]
        end;
    unfold main_calls, at_exit, main_curses_setup, at_exit_curses,
      at_exit_report, at_exit_delete, at_exit_flush, setup_sighandler;
    rewrite ?Hq, ?Hl, ?Hs;
    try destruct (truthy (quiet e0)); try destruct (truthy (line_by_line e0));
    cbn; rewrite <- ?app_assoc; cbn;
    split_all; try assumption; try discriminate; try reflexivity.
Qed.

End Sequential.

Lemma sequential_run (inp : input) (evs : list event) (e : env_t) :
  parse_args (DEFAULT_HISTORY_SIZE inp) env0 (getopt_results inp)
    (stdin_isatty inp) = (evs, Continue e) ->
  forall sch p,
    forallb is_step sch = true ->
    (pc p = L_parse_args -> gl_env p = env0) ->
    (pc p <> L_parse_args ->
     quiet (gl_env p) = quiet e
     /\ line_by_line (gl_env p) = line_by_line e
     /\ history_size (gl_env p) = history_size e) ->
    trace (exec inp p sch) ++ pending e (exec inp p sch)
    = trace p ++ pending e p.
Proof.
  intros Hparse. induction sch as [|[now a] sch IH]; intros p Hall H0 Hcfg;
    [reflexivity|].
  cbn [forallb] in Hall. apply andb_prop in Hall. destruct Hall as [Ha Hall].
  destruct a; try discriminate Ha.
  destruct (state p) eqn:Hst;
    [|rewrite exec_finished by (rewrite Hst; discriminate); reflexivity ..].
  destruct (sequential_step inp evs e Hparse p now Hst H0 Hcfg)
    as (Htr & Hcfg' & Hpc).
  cbn [exec fold_left].
  change (fold_left (step inp) sch (step inp p (now, Step)))
    with (exec inp (step inp p (now, Step)) sch).
  rewrite IH; [exact Htr | exact Hall | |].
  - intros Hl. now destruct Hpc.
  - intros _. exact Hcfg'.
Qed.

Lemma only_steps (sch : schedule) :
  forallb is_step sch = true ->
  existsb is_interrupt sch = false /\ filter is_step sch = sch.
Proof.
  induction sch as [|[now a] sch IH]; intros H; [split; reflexivity|].
  cbn [forallb] in H. apply andb_prop in H. destruct H as [Ha H].
  destruct (IH H) as [H1 H2].
  destruct a; try discriminate Ha.
  cbn. rewrite H1, H2. split; reflexivity.
Qed.

(** X7: when no signal arrives and [parse_args] returns, [main] makes the
    calls of its statements in program order and nothing else: it installs
    the two handlers, arms the alarm, creates the engine, sets curses up
    when it is in use, feeds every line of the input as [run] does, does the
    work of [at_exit] once, and exits with status 0. *)
Theorem main_without_signals (inp : input) (evs : list event) (e : env_t)
    (sch : schedule) :
  parse_args (DEFAULT_HISTORY_SIZE inp) env0 (getopt_results inp)
    (stdin_isatty inp) = (evs, Continue e) ->
  forallb is_step sch = true ->
  (13 + length (stdin_bytes inp) <= length sch)%nat ->
  state (execution inp sch) = Exited EXIT_SUCCESS
  /\ trace (execution inp sch)
     = [Sigaction SIGINT 0 H_on_sigint;
        Sigaction SIGALRM SA_RESTART H_update_display;
        Alarm 1; NewLogtop (history_size e)]
       ++ main_curses_setup e ++ run (stdin_bytes inp) ++ at_exit e.
Proof.
  intros Hparse Hsteps Hlen.
  destruct (only_steps sch Hsteps) as [Hint Hfilter].
  assert (Hend : state (execution inp sch) = Exited EXIT_SUCCESS).
  { apply (normal_run inp evs e Hparse sch (start inp) Hint
             (start_undisturbed inp)).
    rewrite Hfilter. exact Hlen. }
  split; [exact Hend|].
  pose proof (sequential_run inp evs e Hparse sch (start inp) Hsteps
                (fun _ => eq_refl)) as Htr.
  fold (execution inp sch) in Htr.
  unfold pending at 1 in Htr. rewrite Hend, app_nil_r in Htr.
  rewrite Htr; [reflexivity|]. intros H. now destruct H.
Qed.

Lemma main_without_signals_witness :
  state (execution input_quiet (steps 5 15)) = Exited EXIT_SUCCESS
  /\ trace (execution input_quiet (steps 5 15))
     = [Sigaction SIGINT 0 H_on_sigint;
        Sigaction SIGALRM SA_RESTART H_update_display;
        Alarm 1; NewLogtop (history_size (mk_env 10000 1 0 0 1 None))]
       ++ main_curses_setup (mk_env 10000 1 0 0 1 None)
       ++ run (stdin_bytes input_quiet)
       ++ at_exit (mk_env 10000 1 0 0 1 None).
Proof.
  apply (main_without_signals input_quiet [] (mk_env 10000 1 0 0 1 None)
           (steps 5 15)).
  - vm_compute. reflexivity.
  - vm_compute. reflexivity.
  - vm_compute. lia.
Defined.

(** ** Every schedule of statements, ticks and interrupts *)

Section AnySchedule.

Variable inp : input.

Lemma timer_safe_step (p : process) (ta : Z * action) :
  timer_safe p -> timer_safe (step inp p ta).
Proof.
  unfold timer_safe.
  destruct p as [e l di da arm sin tr st], ta as [now a].
  cbn [pc state alarm_armed disp_alrm disp_int].
  intros (Hin & Hout & Hst & Hdi).
  unfold step. cbn [fst snd state].
  destruct st as [| |sig]; [|split_all; assumption ..].
  destruct a.
  - unfold main_step. cbn [pc gl_env stdin].
    destruct l;
      [ destruct (parse_args _ _ _ _) as [evs [e' | code]] eqn:Hparse;
        [ rewrite (parse_args_continue _ _ _ _ _ _ Hparse)
        | destruct (parse_args_exit _ _ _ _ _ _ Hparse) as [-> | ->] ]
      | ..];
      unfold main_curses_setup, at_exit_curses, at_exit_report;
      try destruct (truthy (quiet e)); try destruct (truthy (line_by_line e));
      try (destruct (getline sin) as [[line rest]|]);
      cbn in *; split_all; try discriminate; try assumption;
      try reflexivity; try (intuition congruence).
  - unfold deliver. cbn [disposition disp_int gl_env].
    destruct Hdi as [-> | ->].
    + cbn. split_all; try assumption; try discriminate. now left.
    + rewrite on_sigint_order.
      destruct (truthy (quiet e)), (truthy (line_by_line e));
        cbn; split_all; try assumption; try discriminate; now left.
  - cbn [alarm_armed]. destruct arm; [|cbn; split_all; auto].
    destruct (before_handlers l) eqn:Hb;
      [destruct (Hout eq_refl) as [H _]; discriminate H|].
    rewrite (Hin eq_refl) in *.
    unfold deliver. cbn [disposition disarm disp_alrm gl_env].
    destruct (update_display_cases e now) as [H | (_ & _ & H)]; rewrite H;
      [|destruct (truthy (line_by_line e))];
      cbn; rewrite ?Hb; split_all; auto; discriminate.
Qed.

Section Configured.

Variable evs0 : list event.
Variable e0 : env_t.
Hypothesis parse_ok :
  parse_args (DEFAULT_HISTORY_SIZE inp) env0 (getopt_results inp)
    (stdin_isatty inp) = (evs0, Continue e0).

Ltac close_configured :=
  cbn in *;
  (split;
   [ intros Hx; try discriminate Hx; split_all; auto
   | intros Hx; try (exfalso; apply Hx; reflexivity);
     split_all; try assumption; try reflexivity; try congruence ]).

Lemma configured_step (p : process) (ta : Z * action) :
  unstarted p -> configured e0 p ->
  unstarted (step inp p ta) /\ configured e0 (step inp p ta).
Proof.
  unfold unstarted, configured.
  destruct p as [e l di da arm sin tr st], ta as [now a].
  cbn [pc state alarm_armed disp_alrm disp_int gl_env].
  intros Hun Hcfg.
  unfold step. cbn [fst snd state].
  destruct st as [| |sig]; [|split; assumption ..].
  destruct a.
  - unfold main_step. cbn [pc gl_env stdin].
    destruct l;
      [ destruct (Hun eq_refl) as (-> & -> & ->);
        rewrite parse_ok, (parse_args_continue _ _ _ _ _ _ parse_ok);
        pose proof (parse_args_logtop _ _ _ _ _ _ parse_ok) as Hlog
      | destruct Hcfg as (Hq & Hl & Hi & Hs & Hlog); [discriminate|] ..];
      unfold main_curses_setup, at_exit_curses, at_exit_report;
      try destruct (truthy (quiet e)); try destruct (truthy (line_by_line e));
      try (destruct (getline sin) as [[line rest]|]);
      close_configured.
  - unfold deliver. cbn [disposition disp_int gl_env].
    destruct l;
      [ destruct (Hun eq_refl) as (-> & -> & ->)
      | destruct Hcfg as (Hq & Hl & Hi & Hs & Hlog); [discriminate|] ..];
      try (destruct di;
           [ | rewrite on_sigint_order;
               destruct (truthy (quiet e)), (truthy (line_by_line e))
             | destruct (update_display_cases e now) as [H | (_ & _ & H)];
               rewrite H; [|destruct (truthy (line_by_line e))] ]);
      close_configured.
  - cbn [alarm_armed]. destruct arm; [|split; assumption].
    unfold deliver. cbn [disposition disarm disp_alrm gl_env].
    destruct l;
      [ destruct (Hun eq_refl) as (_ & _ & Harm); discriminate Harm
      | destruct Hcfg as (Hq & Hl & Hi & Hs & Hlog); [discriminate|] ..];
      (destruct da;
       [ | rewrite on_sigint_order;
           destruct (truthy (quiet e)), (truthy (line_by_line e))
         | destruct (update_display_cases e now) as [H | (_ & _ & H)];
           rewrite H; [|destruct (truthy (line_by_line e))] ]);
      close_configured.
Qed.

End Configured.

Lemma engine_safe_step (p : process) (ta : Z * action) :
  timer_safe p -> engine_safe p -> engine_safe (step inp p ta).
Proof.
  unfold timer_safe, engine_safe, engine_use_of.
  destruct p as [e l di da arm sin tr st], ta as [now a].
  cbn [pc state trace alarm_armed disp_alrm disp_int].
  set (u := fold_left engine_event tr (mk_use false false false)).
  intros (Hin & Hout & _ & _) (Hfed & Hlife).
  unfold step. cbn [fst snd state].
  destruct st as [| |sig];
    [|split; [exact Hfed | intros H; discriminate H] ..].
  destruct (Hlife eq_refl) as [Hc Hd]. clear Hlife.
  destruct a.
  - unfold main_step. cbn [pc gl_env stdin].
    destruct l;
      [ destruct (parse_args _ _ _ _) as [evs [e' | code]] eqn:Hparse;
        [ rewrite (parse_args_continue _ _ _ _ _ _ Hparse)
        | destruct (parse_args_exit _ _ _ _ _ _ Hparse) as [-> | ->] ]
      | ..];
      unfold main_curses_setup, at_exit_curses, at_exit_report;
      try destruct (truthy (quiet e)); try destruct (truthy (line_by_line e));
      try (destruct (getline sin) as [[line rest]|]);
      cbn; rewrite ?fold_left_app; cbn; fold u;
      destruct u as [c d f]; cbn in *; subst;
      (split; [reflexivity | intros H; try discriminate H; split; reflexivity]).
  - unfold deliver. cbn [disposition disp_int gl_env].
    destruct di;
      [ | rewrite on_sigint_order;
          destruct (truthy (quiet e)), (truthy (line_by_line e))
        | destruct (update_display_cases e now) as [H | (_ & _ & H)];
          rewrite H; [|destruct (truthy (line_by_line e))] ];
      cbn; rewrite ?fold_left_app; cbn; fold u;
      destruct u as [c d f]; cbn in *; subst;
      (split; [reflexivity | intros H'; try discriminate H'; split; reflexivity]).
  - cbn [alarm_armed]. destruct arm;
      [|cbn; fold u; split; [exact Hfed | intros _; split; assumption]].
    destruct (before_handlers l) eqn:Hb;
      [destruct (Hout eq_refl) as [H _]; discriminate H|].
    rewrite (Hin eq_refl).
    unfold deliver. cbn [disposition disarm disp_alrm gl_env].
    destruct (update_display_cases e now) as [H | (_ & _ & H)];
      rewrite H; [|destruct (truthy (line_by_line e))];
      cbn; rewrite ?fold_left_app; cbn; fold u;
      destruct u as [c d f]; cbn in *; subst;
      (split; [reflexivity | intros H'; split; reflexivity]).
Qed.

Lemma timer_safe_run (sch : schedule) :
  forall p, timer_safe p -> timer_safe (exec inp p sch).
Proof.
  induction sch as [|ta sch IH]; intros p Hp; [exact Hp|].
  cbn [exec fold_left]. apply IH. now apply timer_safe_step.
Qed.

Lemma engine_safe_run (sch : schedule) :
  forall p, timer_safe p -> engine_safe p -> engine_safe (exec inp p sch).
Proof.
  induction sch as [|ta sch IH]; intros p Ht Hp; [exact Hp|].
  cbn [exec fold_left]. apply IH.
  - now apply timer_safe_step.
  - now apply engine_safe_step.
Qed.

Lemma start_timer_safe : timer_safe (start inp).
Proof.
  unfold timer_safe. cbn. split_all; try discriminate.
  - intros _. split; [reflexivity | discriminate].
  - now left.
Qed.

Lemma start_engine_safe : engine_safe (start inp).
Proof. unfold engine_safe. cbn. split; [reflexivity | intros _; now split]. Qed.

End AnySchedule.

Lemma configured_run (inp : input) (evs : list event) (e : env_t) :
  parse_args (DEFAULT_HISTORY_SIZE inp) env0 (getopt_results inp)
    (stdin_isatty inp) = (evs, Continue e) ->
  forall sch p,
    unstarted p -> configured e p ->
    unstarted (exec inp p sch) /\ configured e (exec inp p sch).
Proof.
  intros Hparse. induction sch as [|ta sch IH]; intros p Hu Hc;
    [split; assumption|].
  cbn [exec fold_left].
  destruct (configured_step inp evs e Hparse p ta Hu Hc) as [Hu' Hc'].
  now apply IH.
Qed.

Section EngineUse.

Lemma fed_out_of_life_sticks (tr : list event) :
  forall u, fed_out_of_life u = true ->
    fed_out_of_life (fold_left engine_event tr u) = true.
Proof.
  induction tr as [|ev tr IH]; intros u Hu; [exact Hu|].
  cbn [fold_left]. apply IH. destruct ev; cbn; try exact Hu.
  now rewrite Hu.
Qed.

Lemma deleted_sticks (tr : list event) :
  forall u, deleted u = true -> deleted (fold_left engine_event tr u) = true.
Proof.
  induction tr as [|ev tr IH]; intros u Hu; [exact Hu|].
  cbn [fold_left]. apply IH. destruct ev; cbn; try exact Hu. reflexivity.
Qed.

Lemma created_by_new (tr : list event) :
  forall u, created (fold_left engine_event tr u) = true ->
    created u = true \/ exists n, In (NewLogtop n) tr.
Proof.
  induction tr as [|ev tr IH]; intros u Hu; [now left|].
  cbn [fold_left] in Hu. destruct (IH _ Hu) as [H | [n H]].
  - destruct ev; cbn in H; try (now left).
    right. eexists. left. reflexivity.
  - right. exists n. now right.
Qed.

Lemma not_deleted_no_delete (tr : list event) :
  forall u, deleted (fold_left engine_event tr u) = false ->
    ~ In DeleteLogtop tr.
Proof.
  induction tr as [|ev tr IH]; intros u Hu Hin; [destruct Hin|].
  cbn [fold_left] in Hu. destruct Hin as [-> | Hin].
  - rewrite deleted_sticks in Hu by reflexivity. discriminate Hu.
  - exact (IH _ Hu Hin).
Qed.

Lemma fed_within_life (pre post : list event) (line : list ascii) :
  fed_out_of_life (engine_use_of (pre ++ LogtopFeed line :: post)) = false ->
  (exists n, In (NewLogtop n) pre) /\ ~ In DeleteLogtop pre.
Proof.
  unfold engine_use_of. rewrite fold_left_app. cbn [fold_left].
  set (u := fold_left engine_event pre (mk_use false false false)).
  intros Hfed.
  assert (Hnow : fed_out_of_life (engine_event u (LogtopFeed line)) = false).
  { destruct (fed_out_of_life (engine_event u (LogtopFeed line))) eqn:E;
      [|reflexivity].
    rewrite fed_out_of_life_sticks in Hfed by exact E. discriminate Hfed. }
  cbn in Hnow. apply orb_false_iff in Hnow. destruct Hnow as [Hnow Hd].
  apply orb_false_iff in Hnow. destruct Hnow as [_ Hc].
  apply negb_false_iff in Hc. split.
  - destruct (created_by_new pre _ Hc) as [H | H]; [discriminate H | exact H].
  - exact (not_deleted_no_delete pre _ Hd).
Qed.

End EngineUse.

(** X8: in every execution, for every input and every order of
    statements, ticks and interrupts, an alarm is pending only while
    [update_display] is the handler of SIGALRM, because [main] installs the
    handler before it calls [alarm] and nothing resets it; so the expiry of
    the alarm never ends the process. *)
Theorem alarm_finds_its_handler (inp : input) (sch : schedule) :
  state (execution inp sch) <> Killed SIGALRM
  /\ (alarm_armed (execution inp sch) = true ->
      disp_alrm (execution inp sch) = H_update_display).
Proof.
  destruct (timer_safe_run inp sch (start inp) (start_timer_safe inp))
    as (Hin & Hout & Hst & _).
  fold (execution inp sch) in Hin, Hout, Hst.
  split; [exact Hst|]. intros Harm.
  destruct (before_handlers (pc (execution inp sch))) eqn:Hb.
  - destruct (Hout eq_refl) as [H _]. rewrite H in Harm. discriminate Harm.
  - now apply Hin.
Qed.

Lemma alarm_finds_its_handler_witness :
  alarm_armed
    (execution input_plain (steps 0 9 ++ [(1, Tick); (1, Step); (2, Tick)]))
  = true
  /\ disp_alrm
       (execution input_plain
          (steps 0 9 ++ [(1, Tick); (1, Step); (2, Tick)]))
     = H_update_display.
Proof.
  assert (Harm : alarm_armed
                   (execution input_plain
                      (steps 0 9 ++ [(1, Tick); (1, Step); (2, Tick)]))
                 = true) by (vm_compute; reflexivity).
  split; [exact Harm|].
  exact (proj2 (alarm_finds_its_handler input_plain
                  (steps 0 9 ++ [(1, Tick); (1, Step); (2, Tick)])) Harm).
Defined.

(** X9: once [parse_args] has returned, the settings in [gl_env] (quiet,
    line-by-line, interval and history size) are never written again: in
    every execution, whatever statements, ticks and interrupts follow, they
    are the ones [parse_args] returned. *)
Theorem configuration_is_frozen (inp : input) (evs : list event)
    (e : env_t) (sch : schedule) :
  parse_args (DEFAULT_HISTORY_SIZE inp) env0 (getopt_results inp)
    (stdin_isatty inp) = (evs, Continue e) ->
  pc (execution inp sch) <> L_parse_args ->
  quiet (gl_env (execution inp sch)) = quiet e
  /\ line_by_line (gl_env (execution inp sch)) = line_by_line e
  /\ interval (gl_env (execution inp sch)) = interval e
  /\ history_size (gl_env (execution inp sch)) = history_size e.
Proof.
  intros Hparse Hpc.
  destruct (configured_run inp evs e Hparse sch (start inp)) as [_ Hc].
  - unfold unstarted. cbn. intros _. repeat split.
  - unfold configured. cbn. intros H. now destruct H.
  - destruct (Hc Hpc) as (Hq & Hl & Hi & Hs & _). now repeat split.
Qed.

Lemma configuration_is_frozen_witness :
  quiet (gl_env (execution input_slow
                   (steps 0 8 ++ [(2, Tick); (2, Step); (3, Interrupt)])))
  = 0
  /\ interval (gl_env (execution input_slow
                         (steps 0 8 ++ [(2, Tick); (2, Step);
                                        (3, Interrupt)])))
     = 2.
Proof.
  destruct (configuration_is_frozen input_slow []
              (mk_env 10000 0 0 0 2 None)
              (steps 0 8 ++ [(2, Tick); (2, Step); (3, Interrupt)]))
    as (Hq & _ & Hi & _).
  - vm_compute. reflexivity.
  - vm_compute. discriminate.
  - split; [exact Hq | exact Hi].
Defined.

(** X10: in every execution, each call of [logtop_feed] comes after the
    call of [new_logtop] and before any call of [delete_logtop]: neither a
    tick nor an interrupt makes [run] feed an engine that does not exist
    yet or exists no more. *)
Theorem feed_only_while_engine_lives (inp : input) (sch : schedule)
    (pre post : list event) (line : list ascii) :
  trace (execution inp sch) = pre ++ LogtopFeed line :: post ->
  (exists n, In (NewLogtop n) pre) /\ ~ In DeleteLogtop pre.
Proof.
  intros Htr. apply (fed_within_life pre post line). rewrite <- Htr.
  exact (proj1 (engine_safe_run inp sch (start inp) (start_timer_safe inp)
                  (start_engine_safe inp))).
Qed.

Lemma feed_only_while_engine_lives_witness :
  (exists n,
     In (NewLogtop n)
       [Sigaction SIGINT 0 H_on_sigint;
        Sigaction SIGALRM SA_RESTART H_update_display;
        Alarm 1; NewLogtop 10000; CursesSetup])
  /\ ~ In DeleteLogtop
         [Sigaction SIGINT 0 H_on_sigint;
          Sigaction SIGALRM SA_RESTART H_update_display;
          Alarm 1; NewLogtop 10000; CursesSetup].
Proof.
  apply (feed_only_while_engine_lives input_plain
           (steps 0 9 ++ [(1, Interrupt)])
           [Sigaction SIGINT 0 H_on_sigint;
            Sigaction SIGALRM SA_RESTART H_update_display;
            Alarm 1; NewLogtop 10000; CursesSetup]
           [Sigaction SIGINT 0 SIG_DFL; CursesRelease; StdoutUpdate 10 0;
            DeleteLogtop; Fflush; Kill SIGINT]
           (bytes "a")).
  vm_compute. reflexivity.
Defined.

(** ** The end of [at_exit] *)

Section Teardown.

Variable inp : input.
Variable evs0 : list event.
Variable e0 : env_t.
Hypothesis parse_ok :
  parse_args (DEFAULT_HISTORY_SIZE inp) env0 (getopt_results inp)
    (stdin_isatty inp) = (evs0, Continue e0).

Lemma teardown_step (p : process) (ta : Z * action) :
  is_interrupt ta = false ->
  state p = Running ->
  undisturbed p ->
  teardown p ->
  teardown (step inp p ta).
Proof.
  unfold undisturbed, teardown.
  destruct p as [e l di da arm sin tr st], ta as [now a].
  cbn [pc state alarm_armed disp_alrm disp_int gl_env trace].
  intros Hint -> (Henv & _ & Harm) (Hdel & Hflush).
  destruct a; [| discriminate Hint |].
  - unfold step. cbn [fst snd state].
    destruct l; unfold main_step; cbn [pc gl_env stdin];
      [ rewrite (Henv eq_refl), parse_ok,
          (parse_args_continue _ _ _ _ _ _ parse_ok) | ..];
      unfold main_curses_setup, at_exit_curses, at_exit_report in *;
      try destruct (truthy (quiet e));
      try destruct (truthy (line_by_line e));
      try (destruct (getline sin) as [[line rest]|] eqn:Hget);
      unfold count_events in *; cbn in *;
      rewrite ?filter_app, ?length_app; cbn; split; lia.
  - unfold step. cbn [fst snd state alarm_armed].
    destruct arm; [|cbn; split; assumption].
    destruct Harm as [[-> Hb] | [Harm _]]; [|discriminate Harm].
    unfold deliver. cbn [disposition disarm disp_alrm gl_env].
    destruct (update_display_cases e now) as [H | (_ & _ & H)]; rewrite H;
      [|destruct (truthy (line_by_line e))];
      unfold count_events in *; cbn;
      rewrite ?filter_app, ?length_app; cbn; split; lia.
Qed.

Lemma teardown_run (sch : schedule) :
  forall p,
    existsb is_interrupt sch = false ->
    undisturbed p ->
    teardown p ->
    teardown (exec inp p sch).
Proof.
  induction sch as [|ta sch IH]; intros p Hint Hu Hp; [exact Hp|].
  cbn [existsb] in Hint. apply orb_false_iff in Hint.
  destruct Hint as [Hta Hint].
  destruct (state p) eqn:Hst.
  - cbn [exec fold_left]. apply IH; [exact Hint | |].
    + exact (proj1 (normal_step inp evs0 e0 parse_ok p ta Hta Hst Hu)).
    + now apply teardown_step.
  - rewrite exec_finished by (rewrite Hst; discriminate). exact Hp.
  - rewrite exec_finished by (rewrite Hst; discriminate). exact Hp.
Qed.

End Teardown.

Lemma on_sigint_teardown (e : env_t) (sig : signal) :
  count_events is_release (on_sigint e sig) = length (at_exit_curses e)
  /\ count_events is_delete (on_sigint e sig) = 1%nat
  /\ count_events is_flush (on_sigint e sig) = 1%nat.
Proof.
  rewrite on_sigint_order. unfold at_exit_curses.
  destruct (truthy (quiet e)), (truthy (line_by_line e));
    repeat split; reflexivity.
Qed.

(** X11: as long as the interrupt does not arrive after [main] has begun
    its own [at_exit], the shutdown work is done once. In a run without
    interrupt that ends with [main] returning, and in a run where the
    interrupt arrives at any point from the installation of [on_sigint] up
    to the first statement of [at_exit] in [main], [delete_logtop] and
    [fflush] are called exactly once and [curses_release] once in
    interactive mode and never otherwise; the interrupted run ends by
    SIGINT. *)
Theorem shutdown_once_before_end_of_input (inp : input)
    (evs : list event) (e : env_t) (sch : schedule) :
  parse_args (DEFAULT_HISTORY_SIZE inp) env0 (getopt_results inp)
    (stdin_isatty inp) = (evs, Continue e) ->
  existsb is_interrupt sch = false ->
  (state (execution inp sch) = Exited EXIT_SUCCESS ->
   count_events is_release (trace (execution inp sch))
   = length (at_exit_curses e)
   /\ count_events is_delete (trace (execution inp sch)) = 1%nat
   /\ count_events is_flush (trace (execution inp sch)) = 1%nat)
  /\ (forall now,
      state (execution inp sch) = Running ->
      before_sigint (pc (execution inp sch)) = false ->
      release_done (pc (execution inp sch)) = false ->
      state (step inp (execution inp sch) (now, Interrupt)) = Killed SIGINT
      /\ count_events is_release
           (trace (step inp (execution inp sch) (now, Interrupt)))
         = length (at_exit_curses e)
      /\ count_events is_delete
           (trace (step inp (execution inp sch) (now, Interrupt)))
         = 1%nat
      /\ count_events is_flush
           (trace (step inp (execution inp sch) (now, Interrupt)))
         = 1%nat).
Proof.
  intros Hparse Hint.
  pose proof (lifecycle_run inp evs e Hparse sch (start inp) Hint
                (start_undisturbed inp) (start_lifecycle inp e))
    as (Hcfg & _ & Hrel & Hdi & Hret).
  pose proof (teardown_run inp evs e Hparse sch (start inp) Hint
                (start_undisturbed inp)) as Htd.
  destruct Htd as [Hdel Hflush]; [split; reflexivity|].
  fold (execution inp sch) in Hcfg, Hrel, Hdi, Hret, Hdel, Hflush.
  split.
  - intros Hend. rewrite Hrel, Hdel, Hflush, (Hret Hend).
    repeat split.
  - intros now Hrun Hsig Hdone.
    destruct (interrupt_handled inp (execution inp sch) now Hrun (Hdi Hsig))
      as (Htr & Hst & _).
    split; [exact Hst|].
    rewrite Htr. unfold count_events in *.
    rewrite !filter_app, !length_app, Hrel, Hdel, Hflush, Hdone.
    destruct (on_sigint_teardown (gl_env (execution inp sch)) SIGINT)
      as (Hr & Hd & Hf).
    unfold count_events in Hr, Hd, Hf. rewrite Hr, Hd, Hf.
    destruct Hcfg as [Hq Hl].
    { intros Hpc. rewrite Hpc in Hsig. discriminate Hsig. }
    unfold at_exit_curses. rewrite Hq, Hl.
    destruct (pc (execution inp sch)); try discriminate Hdone;
      cbn [delete_done]; repeat split; lia.
Qed.

Lemma shutdown_once_before_end_of_input_witness :
  state (step input_plain
           (execution input_plain (steps 0 9 ++ [(1, Tick)]))
           (2, Interrupt))
  = Killed SIGINT
  /\ count_events is_delete
       (trace (step input_plain
                 (execution input_plain (steps 0 9 ++ [(1, Tick)]))
                 (2, Interrupt)))
     = 1%nat.
Proof.
  destruct (shutdown_once_before_end_of_input input_plain []
              (mk_env 10000 0 0 0 1 None) (steps 0 9 ++ [(1, Tick)]))
    as [_ H].
  - vm_compute. reflexivity.
  - vm_compute. reflexivity.
  - destruct (H 2) as (Hst & _ & Hdel & _).
    + vm_compute. reflexivity.
    + vm_compute. reflexivity.
    + vm_compute. reflexivity.
    + split; [exact Hst | exact Hdel].
Defined.

(** ** An interrupt during start-up *)

Section EarlyInterrupt.

Lemma interrupt_keeps_env (inp : input) (p : process) (now : Z) :
  state p = Running ->
  disp_int p = H_on_sigint ->
  gl_env (step inp p (now, Interrupt)) = gl_env p.
Proof.
  intros Hrun Hdisp. unfold step. cbn [fst snd]. rewrite Hrun.
  unfold deliver. cbn [disposition]. rewrite Hdisp, on_sigint_order.
  destruct p as [e l di da arm sin tr st]. cbn [gl_env].
  destruct (truthy (quiet e)), (truthy (line_by_line e)); reflexivity.
Qed.

Lemma created_sticks (tr : list event) :
  forall u, created u = true -> created (fold_left engine_event tr u) = true.
Proof.
  induction tr as [|ev tr IH]; intros u Hu; [exact Hu|].
  cbn [fold_left]. apply IH. destruct ev; cbn; try exact Hu. reflexivity.
Qed.

Lemma not_created_no_new (tr : list event) :
  forall u, created (fold_left engine_event tr u) = false ->
    forall n, ~ In (NewLogtop n) tr.
Proof.
  induction tr as [|ev tr IH]; intros u Hu n Hin; [destruct Hin|].
  cbn [fold_left] in Hu. destruct Hin as [-> | Hin].
  - rewrite created_sticks in Hu by reflexivity. discriminate Hu.
  - exact (IH _ Hu n Hin).
Qed.

End EarlyInterrupt.

(** X12: [on_sigint] is installed before the engine and curses exist. An
    interrupt that arrives between main.c:198 and the return of
    [new_logtop] (main.c:202) still runs the whole of [at_exit]:
    [delete_logtop] is called although [new_logtop] never was, on the null
    handle [gl_env.logtop] still holds, and in interactive mode
    [curses_release] is called although [curses_setup] never was. *)
Theorem interrupt_before_engine_exists (inp : input) (evs : list event)
    (e : env_t) (sch : schedule) (now : Z) :
  parse_args (DEFAULT_HISTORY_SIZE inp) env0 (getopt_results inp)
    (stdin_isatty inp) = (evs, Continue e) ->
  existsb is_interrupt sch = false ->
  state (execution inp sch) = Running ->
  before_sigint (pc (execution inp sch)) = false ->
  engine_created (pc (execution inp sch)) = false ->
  state (step inp (execution inp sch) (now, Interrupt)) = Killed SIGINT
  /\ logtop (gl_env (step inp (execution inp sch) (now, Interrupt))) = None
  /\ In DeleteLogtop (trace (step inp (execution inp sch) (now, Interrupt)))
  /\ (forall n,
       ~ In (NewLogtop n)
           (trace (step inp (execution inp sch) (now, Interrupt))))
  /\ count_events is_setup
       (trace (step inp (execution inp sch) (now, Interrupt))) = O
  /\ count_events is_release
       (trace (step inp (execution inp sch) (now, Interrupt)))
     = length (main_curses_setup e).
Proof.
  intros Hparse Hint Hrun Hsig Heng.
  pose proof (lifecycle_run inp evs e Hparse sch (start inp) Hint
                (start_undisturbed inp) (start_lifecycle inp e))
    as (Hcfg & Hsetup & Hrel & Hdi & _).
  destruct (configured_run inp evs e Hparse sch (start inp)) as [_ Hconf].
  { unfold unstarted. cbn. intros _. repeat split. }
  { unfold configured. cbn. intros H. now destruct H. }
  destruct (engine_safe_run inp sch (start inp) (start_timer_safe inp)
              (start_engine_safe inp)) as [_ Huse].
  fold (execution inp sch) in Hcfg, Hsetup, Hrel, Hdi, Hconf, Huse.
  assert (Hpc : pc (execution inp sch) <> L_parse_args).
  { intros Hpc. rewrite Hpc in Hsig. discriminate Hsig. }
  destruct (interrupt_handled inp (execution inp sch) now Hrun (Hdi Hsig))
    as (Htr & Hst & _).
  split; [exact Hst|].
  split.
  { rewrite (interrupt_keeps_env inp _ now Hrun (Hdi Hsig)).
    destruct (Hconf Hpc) as (_ & _ & _ & _ & Hlog). rewrite Hlog.
    destruct (pc (execution inp sch)); try reflexivity;
      discriminate Heng || discriminate Hsig. }
  rewrite Htr, on_sigint_order.
  split.
  { apply in_or_app. right. apply in_or_app. right. apply in_or_app. right.
    apply in_or_app. right. apply in_or_app. left. now left. }
  split.
  { intros n Hin. apply in_app_or in Hin. destruct Hin as [Hin | Hin].
    - destruct (Huse Hrun) as [Hc _]. rewrite Heng in Hc.
      exact (not_created_no_new _ _ Hc n Hin).
    - destruct (truthy (quiet (gl_env (execution inp sch)))),
        (truthy (line_by_line (gl_env (execution inp sch))));
        cbn in Hin;
        repeat (destruct Hin as [Hin | Hin]; [discriminate Hin|]);
        exact Hin. }
  destruct (Hcfg Hpc) as [Hq Hl].
  unfold count_events in *. rewrite !filter_app, !length_app, Hsetup, Hrel.
  unfold main_curses_setup. rewrite Hq, Hl.
  destruct (pc (execution inp sch)); try discriminate Heng;
    try discriminate Hsig;
    destruct (truthy (quiet e)), (truthy (line_by_line e));
    cbn; split; reflexivity.
Qed.

Lemma interrupt_before_engine_exists_witness :
  logtop (gl_env (step input_plain (execution input_plain (steps 0 4))
                    (0, Interrupt))) = None
  /\ In DeleteLogtop
       (trace (step input_plain (execution input_plain (steps 0 4))
                 (0, Interrupt)))
  /\ count_events is_release
       (trace (step input_plain (execution input_plain (steps 0 4))
                 (0, Interrupt)))
     = length (main_curses_setup (mk_env 10000 0 0 0 1 None)).
Proof.
  destruct (interrupt_before_engine_exists input_plain []
              (mk_env 10000 0 0 0 1 None) (steps 0 4) 0)
    as (_ & Hlog & Hdel & _ & _ & Hrel).
  - vm_compute. reflexivity.
  - vm_compute. reflexivity.
  - vm_compute. reflexivity.
  - vm_compute. reflexivity.
  - vm_compute. reflexivity.
  - split; [exact Hlog | split; [exact Hdel | exact Hrel]].
Defined.

(** ** A tick that comes too early *)

Section EarlyTick.

Variable inp : input.

(** Once [main] is past [alarm(1)] and no alarm is pending, none ever is
    again, and [update_display] does not redraw any more. *)
Lemma timer_stays_off_step (p : process) (ta : Z * action) :
  timer_safe p ->
  alarm_armed p = false ->
  alarm_passed (pc p) = true ->
  alarm_armed (step inp p ta) = false
  /\ alarm_passed (pc (step inp p ta)) = true
  /\ count_events is_periodic (trace (step inp p ta))
     = count_events is_periodic (trace p).
Proof.
  unfold timer_safe.
  destruct p as [e l di da arm sin tr st], ta as [now a].
  cbn [pc state alarm_armed disp_alrm disp_int trace].
  intros (_ & _ & _ & Hdi) -> Hl.
  unfold step. cbn [fst snd state alarm_armed].
  destruct st as [| |sig]; [|repeat split; assumption ..].
  destruct a.
  - unfold main_step. cbn [pc gl_env stdin].
    destruct l; try discriminate Hl;
      unfold main_curses_setup, at_exit_curses, at_exit_report;
      try destruct (truthy (quiet e)); try destruct (truthy (line_by_line e));
      try (destruct (getline sin) as [[line rest]|]);
      unfold count_events; cbn; rewrite ?filter_app, ?length_app; cbn;
      repeat split; lia.
  - unfold deliver. cbn [disposition disp_int gl_env].
    destruct Hdi as [-> | ->].
    + cbn. repeat split. exact Hl.
    + rewrite on_sigint_order.
      destruct (truthy (quiet e)), (truthy (line_by_line e));
        unfold count_events; cbn; rewrite ?filter_app, ?length_app; cbn;
        repeat split; try exact Hl; lia.
  - repeat split. exact Hl.
Qed.

Lemma timer_stays_off (sch : schedule) :
  forall p,
    timer_safe p ->
    alarm_armed p = false ->
    alarm_passed (pc p) = true ->
    alarm_armed (exec inp p sch) = false
    /\ count_events is_periodic (trace (exec inp p sch))
       = count_events is_periodic (trace p).
Proof.
  induction sch as [|ta sch IH]; intros p Hsafe Harm Hpc;
    [split; [exact Harm | reflexivity]|].
  cbn [exec fold_left].
  destruct (timer_stays_off_step p ta Hsafe Harm Hpc) as (Harm' & Hpc' & Hn).
  destruct (IH (step inp p ta) (timer_safe_step inp p ta Hsafe) Harm' Hpc')
    as [H1 H2].
  split; [exact H1 | now rewrite <- Hn].
Qed.

End EarlyTick.

(** X13: [update_display] re-arms the alarm only when it redraws. When a
    tick outside quiet mode comes before [interval] seconds have passed
    since the time stamp, the handler returns without calling [alarm], and
    from then on no alarm is ever pending: whatever follows, [update_display]
    never runs again, so there is no further [curses_update] and no
    further [alarm]; only the final report of [at_exit] is still printed. *)
Theorem early_tick_stops_the_timer (inp : input) (sch later : schedule)
    (now : Z) :
  state (execution inp sch) = Running ->
  alarm_armed (execution inp sch) = true ->
  alarm_passed (pc (execution inp sch)) = true ->
  truthy (quiet (gl_env (execution inp sch))) = false ->
  now < last_update_time (gl_env (execution inp sch))
        + interval (gl_env (execution inp sch)) ->
  alarm_armed (execution inp (sch ++ (now, Tick) :: later)) = false
  /\ count_events is_periodic
       (trace (execution inp (sch ++ (now, Tick) :: later)))
     = count_events is_periodic (trace (execution inp sch)).
Proof.
  intros Hrun Harm Hpc Hq Hearly.
  pose proof (timer_safe_run inp sch (start inp) (start_timer_safe inp))
    as Hsafe.
  fold (execution inp sch) in Hsafe.
  assert (Hsplit : execution inp (sch ++ (now, Tick) :: later)
                   = exec inp (step inp (execution inp sch) (now, Tick))
                       later)
    by (unfold execution, exec; rewrite fold_left_app; reflexivity).
  rewrite Hsplit.
  assert (Htick : alarm_armed (step inp (execution inp sch) (now, Tick))
                  = false
                  /\ pc (step inp (execution inp sch) (now, Tick))
                     = pc (execution inp sch)
                  /\ trace (step inp (execution inp sch) (now, Tick))
                     = trace (execution inp sch)).
  { destruct Hsafe as (Hin & Hout & _ & _).
    assert (Hb : before_handlers (pc (execution inp sch)) = false)
      by (destruct (pc (execution inp sch)); try reflexivity;
          discriminate Hpc).
    unfold step. cbn [fst snd]. rewrite Hrun, Harm.
    unfold deliver. cbn [disposition disarm disp_alrm gl_env].
    rewrite (Hin Hb), (update_display_early _ _ Hq Hearly).
    repeat split. }
  destruct Htick as (Hoff & Hsame & Htr).
  destruct (timer_stays_off inp later
              (step inp (execution inp sch) (now, Tick))) as [H1 H2].
  - apply timer_safe_step. exact Hsafe.
  - exact Hoff.
  - now rewrite Hsame.
  - split; [exact H1 | now rewrite H2, Htr].
Qed.

Lemma early_tick_stops_the_timer_witness :
  alarm_armed
    (execution input_slow
       (steps 3 7 ++ (4, Tick) :: [(5, Tick); (6, Tick); (7, Step);
                                    (9, Tick)]))
  = false
  /\ count_events is_periodic
       (trace (execution input_slow
                 (steps 3 7 ++ (4, Tick) :: [(5, Tick); (6, Tick);
                                              (7, Step); (9, Tick)])))
     = count_events is_periodic (trace (execution input_slow (steps 3 7))).
Proof.
  apply (early_tick_stops_the_timer input_slow (steps 3 7)
           [(5, Tick); (6, Tick); (7, Step); (9, Tick)] 4).
  - vm_compute. reflexivity.
  - vm_compute. reflexivity.
  - vm_compute. reflexivity.
  - vm_compute. reflexivity.
  - vm_compute. reflexivity.
Defined.

(** ** Curses outside interactive mode *)

Section NoCurses.

Variable inp : input.
Variable evs0 : list event.
Variable e0 : env_t.
Hypothesis parse_ok :
  parse_args (DEFAULT_HISTORY_SIZE inp) env0 (getopt_results inp)
    (stdin_isatty inp) = (evs0, Continue e0).
Hypothesis not_interactive :
  negb (truthy (quiet e0)) && negb (truthy (line_by_line e0)) = false.

Lemma no_curses_step (p : process) (ta : Z * action) :
  timer_safe p -> unstarted p -> configured e0 p ->
  count_events is_curses (trace p) = O ->
  count_events is_curses (trace (step inp p ta)) = O.
Proof.
  unfold timer_safe, unstarted, configured.
  destruct p as [e l di da arm sin tr st], ta as [now a].
  cbn [pc state alarm_armed disp_alrm disp_int gl_env trace].
  intros (Hin & Hout & _ & Hdi) Hun Hcfg Hcount.
  unfold step. cbn [fst snd state].
  destruct st as [| |sig]; [|assumption ..].
  assert (Hflags : l <> L_parse_args ->
                   negb (truthy (quiet e)) && negb (truthy (line_by_line e))
                   = false).
  { intros Hl. destruct (Hcfg Hl) as (-> & -> & _). exact not_interactive. }
  destruct a.
  - unfold main_step. cbn [pc gl_env stdin].
    destruct l;
      [ destruct (Hun eq_refl) as (-> & -> & ->);
        rewrite parse_ok, (parse_args_continue _ _ _ _ _ _ parse_ok)
      | specialize (Hflags ltac:(discriminate)) ..];
      unfold main_curses_setup, at_exit_curses, at_exit_report;
      rewrite ?Hflags;
      try destruct (truthy (line_by_line e));
      try (destruct (getline sin) as [[line rest]|]);
      unfold count_events in *; cbn; rewrite ?filter_app, ?length_app; cbn;
      lia.
  - unfold deliver. cbn [disposition disp_int gl_env].
    destruct l;
      [ destruct (Hun eq_refl) as (-> & -> & ->); cbn; exact Hcount
      | specialize (Hflags ltac:(discriminate)) ..];
      (destruct Hdi as [-> | ->];
       [ cbn; exact Hcount
       | rewrite on_sigint_order, Hflags;
         destruct (truthy (line_by_line e));
         unfold count_events in *; cbn; rewrite ?filter_app, ?length_app;
         cbn; lia ]).
  - cbn [alarm_armed]. destruct arm; [|exact Hcount].
    destruct (before_handlers l) eqn:Hb;
      [destruct (Hout eq_refl) as [H _]; discriminate H|].
    rewrite (Hin eq_refl).
    assert (Hl : l <> L_parse_args) by (intros ->; discriminate Hb).
    specialize (Hflags Hl).
    unfold deliver. cbn [disposition disarm disp_alrm gl_env].
    destruct (update_display_cases e now) as [H | (Hq & _ & H)]; rewrite H.
    + cbn. exact Hcount.
    + rewrite Hq in Hflags. cbn in Hflags. apply negb_false_iff in Hflags.
      rewrite Hflags.
      unfold count_events in *; cbn; rewrite ?filter_app, ?length_app;
        cbn; lia.
Qed.

Lemma no_curses_run (sch : schedule) :
  forall p,
    timer_safe p -> unstarted p -> configured e0 p ->
    count_events is_curses (trace p) = O ->
    count_events is_curses (trace (exec inp p sch)) = O.
Proof.
  induction sch as [|ta sch IH]; intros p Ht Hu Hc Hn; [exact Hn|].
  cbn [exec fold_left].
  destruct (configured_step inp evs0 e0 parse_ok p ta Hu Hc) as [Hu' Hc'].
  apply IH; try assumption.
  - now apply timer_safe_step.
  - now apply no_curses_step.
Qed.

End NoCurses.

Lemma count_zero_none (f : event -> bool) (l : list event) :
  count_events f l = O -> forall ev, In ev l -> f ev = false.
Proof.
  unfold count_events. induction l as [|x l IH]; intros H ev Hin;
    [destruct Hin|].
  cbn [filter] in H. destruct (f x) eqn:E; [discriminate H|].
  destruct Hin as [<- | Hin]; [exact E | now apply IH].
Qed.

(** X14: curses is used in interactive mode only. With [-q] or with
    [-l NUM] for a value other than 0, no execution, whatever ticks and
    interrupts occur and whenever they do, calls [curses_setup],
    [curses_update] or [curses_release]. *)
Theorem curses_only_in_interactive_mode (inp : input) (evs : list event)
    (e : env_t) (sch : schedule) :
  parse_args (DEFAULT_HISTORY_SIZE inp) env0 (getopt_results inp)
    (stdin_isatty inp) = (evs, Continue e) ->
  truthy (quiet e) = true \/ truthy (line_by_line e) = true ->
  forall ev, In ev (trace (execution inp sch)) -> is_curses ev = false.
Proof.
  intros Hparse Hmode. apply count_zero_none.
  apply (no_curses_run inp evs e Hparse).
  - destruct Hmode as [-> | ->]; [reflexivity | apply andb_false_r].
  - apply start_timer_safe.
  - unfold unstarted. cbn. intros _. repeat split.
  - unfold configured. cbn. intros H. now destruct H.
  - reflexivity.
Qed.

Lemma curses_only_in_interactive_mode_witness :
  In (StdoutUpdate 2 1)
    (trace (execution input_lines
              (steps 0 8 ++ [(1, Tick); (1, Step); (2, Tick);
                             (2, Interrupt)])))
  /\ is_curses (StdoutUpdate 2 1) = false.
Proof.
  assert (Hin : In (StdoutUpdate 2 1)
                  (trace (execution input_lines
                            (steps 0 8 ++ [(1, Tick); (1, Step); (2, Tick);
                                           (2, Interrupt)])))).
  { vm_compute. do 5 right. left. reflexivity. }
  split; [exact Hin|].
  apply (curses_only_in_interactive_mode input_lines []
           (mk_env 10000 0 0 2 1 None)
           (steps 0 8 ++ [(1, Tick); (1, Step); (2, Tick); (2, Interrupt)])).
  - vm_compute. reflexivity.
  - right. vm_compute. reflexivity.
  - exact Hin.
Defined.

(** ** A tick during [at_exit] *)

Lemma count_positive_in (f : event -> bool) (l : list event) :
  (0 < count_events f l)%nat -> exists ev, In ev l /\ f ev = true.
Proof.
  unfold count_events. induction l as [|x l IH]; cbn [filter length];
    [lia|].
  destruct (f x) eqn:E.
  - intros _. exists x. split; [now left | exact E].
  - intros H. destruct (IH H) as (ev & Hin & Hev).
    exists ev. split; [now right | exact Hev].
Qed.

(** X15: [at_exit] does not cancel the alarm. When [main] reaches the end
    of the input with the alarm still pending, a tick that is due after
    [main] has called [delete_logtop] runs [update_display] as usual: it
    redraws ([curses_update], or [stdout_update] in line-by-line mode) and
    re-arms the alarm although the engine has been deleted and curses
    released. *)
Theorem tick_after_delete_redraws (inp : input) (evs : list event)
    (e : env_t) (sch : schedule) (now : Z) :
  parse_args (DEFAULT_HISTORY_SIZE inp) env0 (getopt_results inp)
    (stdin_isatty inp) = (evs, Continue e) ->
  existsb is_interrupt sch = false ->
  state (execution inp sch) = Running ->
  delete_done (pc (execution inp sch)) = true ->
  alarm_armed (execution inp sch) = true ->
  truthy (quiet e) = false ->
  last_update_time (gl_env (execution inp sch)) + interval e <= now ->
  In DeleteLogtop (trace (execution inp sch))
  /\ trace (step inp (execution inp sch) (now, Tick))
     = trace (execution inp sch)
       ++ [if truthy (line_by_line e)
           then StdoutUpdate (line_by_line e) 1 else CursesUpdate;
           Alarm 1]
  /\ alarm_armed (step inp (execution inp sch) (now, Tick)) = true.
Proof.
  intros Hparse Hint Hrun Hdone Harm Hq Hdue.
  destruct (normal_run inp evs e Hparse sch (start inp) Hint
              (start_undisturbed inp)) as [(_ & _ & Halrm) _].
  destruct (teardown_run inp evs e Hparse sch (start inp) Hint
              (start_undisturbed inp)) as [Hdel _]; [split; reflexivity|].
  destruct (configured_run inp evs e Hparse sch (start inp)) as [_ Hconf].
  { unfold unstarted. cbn. intros _. repeat split. }
  { unfold configured. cbn. intros H. now destruct H. }
  fold (execution inp sch) in Halrm, Hdel, Hconf.
  assert (Hpc : pc (execution inp sch) <> L_parse_args).
  { intros Hpc. rewrite Hpc in Hdone. discriminate Hdone. }
  destruct (Hconf Hpc) as (Hq' & Hl' & Hi' & _).
  split.
  { rewrite Hdone in Hdel.
    destruct (count_positive_in is_delete (trace (execution inp sch)))
      as (ev & Hin & Hev); [lia|].
    destruct ev; try discriminate Hev. exact Hin. }
  destruct Halrm as [[Hd _] | [Hoff _]];
    [|rewrite Hoff in Harm; discriminate Harm].
  unfold step. cbn [fst snd]. rewrite Hrun, Harm.
  unfold deliver. cbn [disposition disarm disp_alrm gl_env]. rewrite Hd.
  rewrite update_display_due; [| now rewrite Hq' | now rewrite Hi'].
  rewrite Hl'. clear.
  destruct (execution inp sch) as [g l di da arm sin tr st].
  destruct (truthy (line_by_line e)); cbn; rewrite <- app_assoc;
    split; reflexivity.
Qed.

Lemma tick_after_delete_redraws_witness :
  In DeleteLogtop (trace (execution input_plain (steps 0 12)))
  /\ trace (step input_plain (execution input_plain (steps 0 12))
              (1, Tick))
     = trace (execution input_plain (steps 0 12))
       ++ [if truthy (line_by_line (mk_env 10000 0 0 0 1 None))
           then StdoutUpdate (line_by_line (mk_env 10000 0 0 0 1 None)) 1
           else CursesUpdate;
           Alarm 1].
Proof.
  destruct (tick_after_delete_redraws input_plain []
              (mk_env 10000 0 0 0 1 None) (steps 0 12) 1)
    as (Hin & Htr & _).
  - vm_compute. reflexivity.
  - vm_compute. reflexivity.
  - vm_compute. reflexivity.
  - vm_compute. reflexivity.
  - vm_compute. reflexivity.
  - vm_compute. reflexivity.
  - vm_compute. discriminate.
  - split; [exact Hin | exact Htr].
Defined.

(** ** Quiet mode after its only tick *)

Section QuietTimer.

Variable inp : input.

(** An alarm is pending only once [main] is past [alarm(1)]. *)
Lemma armed_after_alarm_step (p : process) (ta : Z * action) :
  timer_safe p ->
  (alarm_armed p = true -> alarm_passed (pc p) = true) ->
  alarm_armed (step inp p ta) = true ->
  alarm_passed (pc (step inp p ta)) = true.
Proof.
  unfold timer_safe.
  destruct p as [e l di da arm sin tr st], ta as [now a].
  cbn [pc state alarm_armed disp_alrm disp_int].
  intros (Hin & Hout & _ & Hdi) Hpassed.
  unfold step. cbn [fst snd state].
  destruct st as [| |sig]; [|exact Hpassed ..].
  destruct a.
  - unfold main_step. cbn [pc gl_env stdin].
    destruct l;
      [ destruct (parse_args _ _ _ _) as [evs [e' | code]] eqn:Hparse;
        [ rewrite (parse_args_continue _ _ _ _ _ _ Hparse)
        | destruct (parse_args_exit _ _ _ _ _ _ Hparse) as [-> | ->] ]
      | ..];
      unfold main_curses_setup, at_exit_curses, at_exit_report;
      try destruct (truthy (quiet e)); try destruct (truthy (line_by_line e));
      try (destruct (getline sin) as [[line rest]|]);
      cbn in *; intros H; try reflexivity;
      try (specialize (Hpassed H); discriminate Hpassed);
      try (destruct (Hout eq_refl) as [H' _]; rewrite H' in H;
           discriminate H).
  - unfold deliver. cbn [disposition disp_int gl_env].
    destruct Hdi as [-> | ->].
    + cbn. exact Hpassed.
    + rewrite on_sigint_order.
      destruct (truthy (quiet e)), (truthy (line_by_line e));
        cbn; exact Hpassed.
  - cbn [alarm_armed]. destruct arm; [|cbn; exact Hpassed].
    specialize (Hpassed eq_refl).
    destruct (before_handlers l) eqn:Hb;
      [destruct (Hout eq_refl) as [H _]; discriminate H|].
    rewrite (Hin eq_refl).
    unfold deliver. cbn [disposition disarm disp_alrm gl_env].
    destruct (update_display_cases e now) as [H | (_ & _ & H)]; rewrite H;
      [|destruct (truthy (line_by_line e))]; cbn; intros _; exact Hpassed.
Qed.

Lemma armed_after_alarm (sch : schedule) :
  forall p,
    timer_safe p ->
    (alarm_armed p = true -> alarm_passed (pc p) = true) ->
    alarm_armed (exec inp p sch) = true ->
    alarm_passed (pc (exec inp p sch)) = true.
Proof.
  induction sch as [|ta sch IH]; intros p Hsafe Hp; [exact Hp|].
  cbn [exec fold_left]. apply IH.
  - now apply timer_safe_step.
  - now apply armed_after_alarm_step.
Qed.

End QuietTimer.

(** C2, amended: on a tick in quiet mode [update_display] returns at once:
    no redraw, no event at all, no change of [gl_env], and the timer is not
    re-armed. So after the tick of the alarm that [main] armed, no further
    tick follows in quiet mode: whatever comes later in the run, no alarm is
    pending any more, and the trace gets no further [alarm] and no
    [curses_update]. *)
Theorem quiet_tick_is_idle (inp : input) (p : process) (now : Z) :
  state p = Running ->
  disp_alrm p = H_update_display ->
  truthy (quiet (gl_env p)) = true ->
  update_display (gl_env p) now = (gl_env p, [])
  /\ trace (step inp p (now, Tick)) = trace p
  /\ gl_env (step inp p (now, Tick)) = gl_env p
  /\ alarm_armed (step inp p (now, Tick)) = false
  /\ (forall now',
       step inp (step inp p (now, Tick)) (now', Tick)
       = step inp p (now, Tick))
  /\ (forall sch later,
       p = execution inp sch ->
       alarm_armed p = true ->
       alarm_armed (execution inp (sch ++ (now, Tick) :: later)) = false
       /\ count_events is_periodic
            (trace (execution inp (sch ++ (now, Tick) :: later)))
          = count_events is_periodic (trace p)).
Proof.
  intros Hrun Hdisp Hq.
  pose proof (update_display_quiet (gl_env p) now Hq) as Hupd.
  assert (Htick : trace (step inp p (now, Tick)) = trace p
                  /\ gl_env (step inp p (now, Tick)) = gl_env p
                  /\ alarm_armed (step inp p (now, Tick)) = false
                  /\ pc (step inp p (now, Tick)) = pc p
                  /\ (forall now',
                       step inp (step inp p (now, Tick)) (now', Tick)
                       = step inp p (now, Tick))).
  { unfold step. cbn [snd fst]. rewrite Hrun.
    destruct (alarm_armed p) eqn:Harm.
    - unfold deliver. cbn [disposition disarm disp_alrm gl_env].
      rewrite Hdisp, Hupd. cbn. rewrite Hrun. repeat split.
    - rewrite Hrun, Harm. repeat split. }
  destruct Htick as (Htr & Henv & Hoff & Hpc & Hidem).
  split; [exact Hupd|]. split; [exact Htr|]. split; [exact Henv|].
  split; [exact Hoff|]. split; [exact Hidem|].
  intros sch later Hreach Harm.
  assert (Hsafe : timer_safe p).
  { rewrite Hreach. apply timer_safe_run. apply start_timer_safe. }
  assert (Hpassed : alarm_passed (pc p) = true).
  { rewrite Hreach. rewrite Hreach in Harm.
    apply (armed_after_alarm inp sch (start inp)).
    - apply start_timer_safe.
    - cbn. discriminate.
    - exact Harm. }
  assert (Hsplit : execution inp (sch ++ (now, Tick) :: later)
                   = exec inp (step inp p (now, Tick)) later)
    by (rewrite Hreach; unfold execution, exec; rewrite fold_left_app;
        reflexivity).
  rewrite Hsplit.
  destruct (timer_stays_off inp later (step inp p (now, Tick)))
    as [H1 H2].
  - now apply timer_safe_step.
  - exact Hoff.
  - now rewrite Hpc.
  - split; [exact H1 | now rewrite H2, Htr].
Qed.

Lemma quiet_tick_is_idle_witness :
  update_display (gl_env (execution input_quiet (steps 0 7))) 1
  = (gl_env (execution input_quiet (steps 0 7)), [])
  /\ alarm_armed
       (step input_quiet (execution input_quiet (steps 0 7)) (1, Tick))
     = false
  /\ alarm_armed
       (execution input_quiet
          (steps 0 7 ++ (1, Tick) :: [(2, Tick); (2, Step); (3, Tick);
                                      (3, Step); (4, Tick)]))
     = false
  /\ count_events is_periodic
       (trace (execution input_quiet
                 (steps 0 7 ++ (1, Tick) :: [(2, Tick); (2, Step);
                                             (3, Tick); (3, Step);
                                             (4, Tick)])))
     = count_events is_periodic (trace (execution input_quiet (steps 0 7))).
Proof.
  assert (Hrun : state (execution input_quiet (steps 0 7)) = Running)
    by (vm_compute; reflexivity).
  assert (Hdisp : disp_alrm (execution input_quiet (steps 0 7))
                  = H_update_display) by (vm_compute; reflexivity).
  assert (Hq : truthy (quiet (gl_env (execution input_quiet (steps 0 7))))
               = true) by (vm_compute; reflexivity).
  assert (Harm : alarm_armed (execution input_quiet (steps 0 7)) = true)
    by (vm_compute; reflexivity).
  destruct (quiet_tick_is_idle input_quiet
              (execution input_quiet (steps 0 7)) 1 Hrun Hdisp Hq)
    as (H1 & _ & _ & H4 & _ & H6).
  destruct (H6 (steps 0 7)
              [(2, Tick); (2, Step); (3, Tick); (3, Step); (4, Tick)]
              eq_refl Harm) as [H7 H8].
  split; [exact H1|]. split; [exact H4|]. split; [exact H7 | exact H8].
Defined.

(** ** The first assignment of the time stamp *)

(** C8 fails on the code: [main] arms the alarm (main.c:200) before it sets
    the time stamp (main.c:201), and the assignment is a call of [time]
    followed by a store. With no option (interval 1), [main] calls [time]
    while the clock reads 5; the alarm expires when the clock reads 6 and
    [update_display], which is due, sets the time stamp to 6; then [main]
    stores the 5 it had read. The clock never went back and never read less
    than 0, and the time stamp went from 6 to 5. *)
Theorem main_store_rewinds_time_stamp :
  nondecreasing (clock_of schedule_late_store) = true
  /\ forallb (fun t => 0 <=? t) (clock_of schedule_late_store) = true
  /\ pc (proc (fine_execution input_plain (steps 5 5))) = L_time
  /\ time_read (fine_execution input_plain (steps 5 5)) = Some 5
  /\ interval (gl_env (proc (fine_execution input_plain (steps 5 5)))) = 1
  /\ last_update_time
       (gl_env (proc (fine_execution input_plain
                        (steps 5 5 ++ [(6, Tick)]))))
     = 6
  /\ last_update_time
       (gl_env (proc (fine_execution input_plain schedule_late_store)))
     = 5.
Proof. repeat split; vm_compute; reflexivity. Qed.

(** ** Curses released without having been set up *)

(** C10 fails on the code: the two guards are the same, but [on_sigint] is
    installed (main.c:198) before [curses_setup] is called (main.c:204) and
    is still installed while [main] runs its own [at_exit] (main.c:206). In
    interactive mode, an interrupt that arrives after four statements of
    [main] runs [at_exit]: [curses_release] is called and [curses_setup]
    never was. An interrupt that arrives when [main] has just called
    [curses_release] itself calls it a second time for one
    [curses_setup]. *)
Theorem curses_release_without_setup :
  truthy (quiet (gl_env (execution input_plain (steps 0 4)))) = false
  /\ truthy (line_by_line (gl_env (execution input_plain (steps 0 4))))
     = false
  /\ pc (execution input_plain (steps 0 4)) = L_time
  /\ trace (execution input_plain (steps 0 4 ++ [(0, Interrupt)]))
     = [Sigaction SIGINT 0 H_on_sigint;
        Sigaction SIGALRM SA_RESTART H_update_display; Alarm 1;
        Sigaction SIGINT 0 SIG_DFL; CursesRelease; StdoutUpdate 10 0;
        DeleteLogtop; Fflush; Kill SIGINT]
  /\ count_events is_setup
       (trace (execution input_plain (steps 0 4 ++ [(0, Interrupt)])))
     = 0%nat
  /\ count_events is_release
       (trace (execution input_plain (steps 0 4 ++ [(0, Interrupt)])))
     = 1%nat
  /\ pc (execution input_plain (steps 0 10)) = L_exit_report
  /\ count_events is_setup
       (trace (execution input_plain (steps 0 10 ++ [(0, Interrupt)])))
     = 1%nat
  /\ count_events is_release
       (trace (execution input_plain (steps 0 10 ++ [(0, Interrupt)])))
     = 2%nat.
Proof. repeat split; vm_compute; reflexivity. Qed.
